(** * Device file-system model and sorted proxy of [mu/interface/models.py]

    A shallow embedding of [DeviceFileSystem] (the list model that mirrors a
    directory of the remote device) and of [SortedFileSystem.lessThan] (the
    comparison the sorting proxy hands to Qt), followed by the properties
    of the specification that concern them.

    Python values are modelled as follows: [str] as [string], [int] as [Z],
    a listing tuple [(name, is_dir, size)] as the record [entry], a Python
    list as [list] with Python's indexing rules written out ([getitem]),
    an exception as the outcome [Raised].  The methods of the model run in a
    small monad [M] that threads the object's fields ([path], [content]),
    records the Qt signals emitted (and the text printed) in order, and
    propagates exceptions while keeping the state reached so far. *)

From Stdlib Require Import String Ascii List ZArith NArith Bool Lia Permutation Sorted.
Import ListNotations.
Local Open Scope string_scope.
Local Open Scope Z_scope.

(** ** Python values *)

Inductive exn : Type :=
| IndexError.

Inductive outcome (A : Type) : Type :=
| Return (a : A)
| Raised (e : exn).
Arguments Return {A} a.
Arguments Raised {A} e.

(** [l[i]] for a Python list: rows [0 .. n-1] count from the front, rows
    [-n .. -1] count from the back, anything else raises [IndexError]. *)
Definition getitem {A : Type} (l : list A) (i : Z) : outcome A :=
  let n := Z.of_nat (length l) in
  let k := if i <? 0 then i + n else i in
  if (k <? 0) || (n <=? k) then Raised IndexError
  else match nth_error l (Z.to_nat k) with
       | Some a => Return a
       | None => Raised IndexError
       end.

(** ["/".join(segments)] *)
Definition join (segments : list string) : string := String.concat "/" segments.

(** ** Qt values *)

(** A [QModelIndex] as far as this code observes it: [row()] and
    [column()].  The invalid index [QModelIndex()] has row and column -1. *)
Record QModelIndex : Type := createIndex { row : Z; column : Z }.

Definition invalid_index : QModelIndex := createIndex (-1) (-1).

(** [Qt.ItemDataRole] and [Qt.ItemFlag] constants used by the source. *)
Definition DisplayRole : Z := 0.
Definition DecorationRole : Z := 1.
Definition EditRole : Z := 2.
Definition ItemIsEditable : Z := 2.

Inductive IconType : Type :=
| Folder
| File.

(** What [data] hands back: a string, an icon, or Python's [None]. *)
Inductive QVariant : Type :=
| QString (s : string)
| QIcon (i : IconType)
| QInvalid.

(** ** The model's state *)

Record entry : Type := mk_entry { name : string; is_dir : bool; size : Z }.

Record DeviceFileSystem : Type := mk_model {
  path : list string;
  content : list entry
}.

(** Everything the model sends out: its three request signals,
    [dataChanged], and the line [setData] prints. *)
Inductive signal : Type :=
| list_files (p : string)
| delete (p : string)
| rename (old_path new_path : string)
| dataChanged (top_left bottom_right : QModelIndex)
| printed (args : list string).

(** ** The method monad *)

Definition M (A : Type) : Type :=
  DeviceFileSystem -> outcome A * DeviceFileSystem * list signal.

Definition ret {A : Type} (a : A) : M A := fun self => (Return a, self, []).

Definition bind {A B : Type} (m : M A) (f : A -> M B) : M B :=
  fun self =>
    match m self with
    | (Return a, self1, out1) =>
        match f a self1 with
        | (o, self2, out2) => (o, self2, (out1 ++ out2)%list)
        end
    | (Raised e, self1, out1) => (Raised e, self1, out1)
    end.

Notation "x <- m ;; k" := (bind m (fun x => k))
  (at level 61, m at next level, right associativity).
Notation "m ;;; k" := (bind m (fun _ => k))
  (at level 61, right associativity).

Definition lift {A : Type} (o : outcome A) : M A := fun self => (o, self, []).
Definition emit (sg : signal) : M unit := fun self => (Return tt, self, [sg]).
Definition get_path : M (list string) := fun self => (Return (path self), self, []).
Definition get_content : M (list entry) := fun self => (Return (content self), self, []).
Definition set_path (p : list string) : M unit :=
  fun self => (Return tt, mk_model p (content self), []).
Definition set_content (c : list entry) : M unit :=
  fun self => (Return tt, mk_model (path self) c, []).

(** The state a call leaves behind, what it emitted, and what it returned. *)
Definition state_after {A : Type} (m : M A) (self : DeviceFileSystem) : DeviceFileSystem :=
  snd (fst (m self)).
Definition emitted {A : Type} (m : M A) (self : DeviceFileSystem) : list signal :=
  snd (m self).
Definition result_of {A : Type} (m : M A) (self : DeviceFileSystem) : outcome A :=
  fst (fst (m self)).

(** ** DeviceFileSystem *)

(** [self.path.pop()]: raises on an empty list, else drops the last segment. *)
Definition path_pop : M string :=
  p <- get_path ;;
  match p with
  | [] => lift (Raised IndexError)
  | _ :: _ => set_path (removelast p) ;;; ret (last p "")
  end.

(** [self.path.append(x)] *)
Definition path_append (x : string) : M unit :=
  p <- get_path ;; set_path (p ++ [x])%list.

(** [self.content[index.row()]] *)
Definition content_at (index : QModelIndex) : M entry :=
  c <- get_content ;; lift (getitem c (row index)).

Definition invalidate : M unit :=
  p <- get_path ;; emit (list_files (join p)).

(** [self.content] and the caller's [files] are one list object in the
    source; the model is the only one to use it afterwards, so the field
    holds the list by value here. *)
Definition on_ls (files : list entry) : M unit :=
  set_content files ;;;
  p <- get_path ;;
  (if 0 <? Z.of_nat (length p)
   then c <- get_content ;; set_content (c ++ [mk_entry ".." true 1])%list
   else ret tt) ;;;
  c <- get_content ;;
  emit (dataChanged (createIndex 0 0) (createIndex 0 (Z.of_nat (length c)))).

Definition on_ls_fail : M unit :=
  set_content [] ;;;
  emit (dataChanged (createIndex 0 0) (createIndex 0 0)).

Definition on_mv (file new_file : string) : M unit := invalidate.
Definition on_mv_fail (file new_file : string) : M unit := invalidate.
Definition on_delete (file : string) : M unit := invalidate.
Definition on_delete_fail (file : string) : M unit := invalidate.

Definition do_delete (file : string) : M unit :=
  p <- get_path ;; emit (delete ((join p ++ "/") ++ file)).

Definition rowCount (parent : QModelIndex) : M Z :=
  c <- get_content ;; ret (Z.of_nat (length c)).

Definition columnCount (parent : QModelIndex) : M Z := ret 1.

(** [QAbstractListModel.index(row)], with the defaults [column = 0] and
    [parent = QModelIndex()]: the index of the row when [hasIndex] holds,
    the invalid index otherwise. *)
Definition index (r : Z) : M QModelIndex :=
  rows <- rowCount invalid_index ;;
  cols <- columnCount invalid_index ;;
  if (0 <=? r) && (r <? rows) && (0 <? cols)
  then ret (createIndex r 0)
  else ret invalid_index.

Definition is_directory (ix : QModelIndex) : M bool :=
  e <- content_at ix ;; ret (is_dir e).

Definition enter_directory (ix : QModelIndex) : M QModelIndex :=
  e <- content_at ix ;;
  (if name e =? ".." then path_pop ;;; ret tt
   else if is_dir e then path_append (name e)
   else ret tt)%string ;;;
  p <- get_path ;;
  emit (list_files (join p)) ;;;
  index (-1).

Definition data (ix : QModelIndex) (role : Z) : M QVariant :=
  e <- content_at ix ;;
  if (role =? DisplayRole) || (role =? EditRole) then ret (QString (name e))
  else if role =? DecorationRole then
    (if is_dir e then ret (QIcon Folder) else ret (QIcon File))
  else ret QInvalid.

Definition get_root_index : M QModelIndex := index (-1).

Section Flags.

(** [super().flags(index)]: the flags Qt's list model gives every item. *)
Variable default_flags : QModelIndex -> Z.

Definition flags (ix : QModelIndex) : M Z :=
  e <- content_at ix ;;
  if ((name e =? "..") || (name e =? "."))%string then ret (default_flags ix)
  else ret (Z.lor (default_flags ix) ItemIsEditable).

End Flags.

Definition setData (ix : QModelIndex) (value : string) (role : Z) : M bool :=
  e <- content_at ix ;;
  if (role =? DisplayRole) || (role =? EditRole) then
    p <- get_path ;;
    let prefix := join p ++ "/" in
    emit (printed ["Renaming on device: "; prefix ++ name e; "to"; prefix ++ value]) ;;;
    emit (rename (prefix ++ name e) (prefix ++ value)) ;;;
    invalidate ;;;
    ret true
  else ret false.

(** ** The requests of the user interface and the file manager's answers

    [__init__] connects the file manager's six completion signals to the
    handlers above; [deliver] is that wiring.  A delete request reaches the
    model through [do_delete], a rename request through [setData]. *)

Inductive completion : Type :=
| on_list_files (files : list entry)
| on_list_fail
| on_move_file (file new_file : string)
| on_move_fail (file new_file : string)
| on_delete_file (file : string)
| on_delete_fail_signal (file : string).

Definition deliver (c : completion) : M unit :=
  match c with
  | on_list_files files => on_ls files
  | on_list_fail => on_ls_fail
  | on_move_file file new_file => on_mv file new_file
  | on_move_fail file new_file => on_mv_fail file new_file
  | on_delete_file file => on_delete file
  | on_delete_fail_signal file => on_delete_fail file
  end.

Inductive request : Type :=
| delete_request (file : string)
| rename_request (ix : QModelIndex) (value : string) (role : Z).

Definition issue (r : request) : M unit :=
  match r with
  | delete_request file => do_delete file
  | rename_request ix value role => setData ix value role ;;; ret tt
  end.

(** The completions that answer a request: move results for a rename,
    delete results for a delete. *)
Definition answers (c : completion) (r : request) : bool :=
  match r, c with
  | delete_request _, (on_delete_file _ | on_delete_fail_signal _) => true
  | rename_request _ _ _, (on_move_file _ _ | on_move_fail _ _) => true
  | _, _ => false
  end.

(** The list requests among the signals sent. *)
Definition list_requests (out : list signal) : list string :=
  flat_map (fun sg => match sg with list_files p => [p] | _ => [] end) out.

(** ** SortedFileSystem *)

Definition toString (v : QVariant) : string :=
  match v with
  | QString s => s
  | _ => ""
  end.

(** [left_name == ".."] on what [data] returned. *)
Definition is_string (v : QVariant) (s : string) : bool :=
  match v with
  | QString t => (t =? s)%string
  | _ => false
  end.

Section Proxy.

(** Qt's case folding of one character; [__init__] selects it with
    [setSortCaseSensitivity(Qt.CaseInsensitive)]. *)
Variable foldCase : ascii -> ascii.

Definition fold_name (s : string) : list N :=
  map (fun c => N_of_ascii (foldCase c)) (list_ascii_of_string s).

(** [QString::compare(a, b, Qt::CaseInsensitive)]: the first position at
    which the folded characters differ decides; a proper prefix is smaller. *)
Fixpoint compare_ci (a b : string) : comparison :=
  match a, b with
  | EmptyString, EmptyString => Eq
  | EmptyString, String _ _ => Lt
  | String _ _, EmptyString => Gt
  | String x a', String y b' =>
      match N.compare (N_of_ascii (foldCase x)) (N_of_ascii (foldCase y)) with
      | Eq => compare_ci a' b'
      | c => c
      end
  end.

(** Qt's comparison of two variants for sorting, strings compared without
    regard to case and without the locale. *)
Definition isVariantLessThan (l r : QVariant) : bool :=
  match l, r with
  | QInvalid, _ => false
  | _, QInvalid => true
  | _, _ => match compare_ci (toString l) (toString r) with Lt => true | _ => false end
  end.

(** [QSortFilterProxyModel.lessThan]: compares what the source model's
    [data] returns for the sort role, which is the display role. *)
Definition super_lessThan (left right : QModelIndex) : M bool :=
  l <- data left DisplayRole ;;
  r <- data right DisplayRole ;;
  ret (isVariantLessThan l r).

Definition lessThan (left right : QModelIndex) : M bool :=
  left_name <- data left DisplayRole ;;
  right_name <- data right DisplayRole ;;
  if is_string left_name ".." then ret true
  else if is_string right_name ".." then ret false
  else
    left_is_dir <- is_directory left ;;
    right_is_dir <- is_directory right ;;
    if negb left_is_dir && right_is_dir then ret false
    else if left_is_dir && negb right_is_dir then ret true
    else super_lessThan left right.

(** [lessThan] as a plain relation on source rows. *)
Definition row_lessThan (self : DeviceFileSystem) (l r : Z) : bool :=
  match result_of (lessThan (createIndex l 0) (createIndex r 0)) self with
  | Return b => b
  | Raised _ => false
  end.

(** The source rows the proxy maps: [0 .. rowCount - 1]. *)
Definition source_rows (self : DeviceFileSystem) : list Z :=
  map Z.of_nat (seq 0 (length (content self))).

(** [self.sort(0)]: Qt sorts the source rows with a stable sort whose
    comparison is [lessThan]; proxy row [i] then shows the [i]-th row of the
    result.  The stable sort is written here as an insertion sort: a row
    moves past the rows that precede it and stops at the first that does
    not, so rows of which neither precedes the other keep their source
    order. *)
Fixpoint insert_row (lt : Z -> Z -> bool) (x : Z) (rows : list Z) : list Z :=
  match rows with
  | [] => [x]
  | y :: rest => if lt y x then y :: insert_row lt x rest else x :: y :: rest
  end.

Definition stable_sort (lt : Z -> Z -> bool) (rows : list Z) : list Z :=
  fold_right (insert_row lt) [] rows.

Definition proxy_to_source (self : DeviceFileSystem) : list Z :=
  stable_sort (row_lessThan self) (source_rows self).

(** What any sort of the source rows by [lessThan] guarantees of its
    result [rows]: it lists the source rows, and no row precedes a row
    placed above it. *)
Definition sorted_rows (self : DeviceFileSystem) (rows : list Z) : Prop :=
  Permutation (source_rows self) rows /\
  forall i j ri rj, (i < j)%nat ->
    nth_error rows i = Some ri -> nth_error rows j = Some rj ->
    lessThan (createIndex rj 0) (createIndex ri 0) self = (Return false, self, []).

(** The names the proxy displays, top to bottom. *)
Definition displayed (self : DeviceFileSystem) : list string :=
  flat_map (fun r => match nth_error (content self) (Z.to_nat r) with
                     | Some e => [name e]
                     | None => []
                     end) (proxy_to_source self).

End Proxy.

(** Folding of the ASCII letters, for running the proxy on examples. *)
Definition ascii_fold (c : ascii) : ascii :=
  let n := N_of_ascii c in
  if ((65 <=? n) && (n <=? 90))%N then ascii_of_N (n + 32) else c.

(** A row is in range when it names an entry counting from the front. *)
Definition in_range (self : DeviceFileSystem) (ix : QModelIndex) : Prop :=
  0 <= row ix < Z.of_nat (length (content self)).

Definition parent_entry : entry := mk_entry ".." true 1.

(** The new path [enter_directory] computes for the entry it is given. *)
Definition entered (p : list string) (e : entry) : list string :=
  if (name e =? "..")%string then removelast p
  else if is_dir e then (p ++ [name e])%list
  else p.

(** The entry a row names, by Python's indexing. *)
Definition entry_at (self : DeviceFileSystem) (r : Z) (e : entry) : Prop :=
  getitem (content self) r = Return e.

(** What [lessThan] answers for two rows, as a function of their entries. *)
Definition precedes (foldCase : ascii -> ascii) (a b : entry) : bool :=
  if (name a =? "..")%string then true
  else if (name b =? "..")%string then false
  else if negb (is_dir a) && is_dir b then false
  else if is_dir a && negb (is_dir b) then true
  else match compare_ci foldCase (name a) (name b) with Lt => true | _ => false end.

(** No row precedes a row placed above it. *)
Definition ascending (lt : Z -> Z -> bool) (rows : list Z) : Prop :=
  StronglySorted (fun above below => lt below above = false) rows.

(** The listing has at most one row named "..". *)
Definition one_parent_row (self : DeviceFileSystem) : Prop :=
  forall i j a b,
    nth_error (content self) i = Some a -> nth_error (content self) j = Some b ->
    name a = ".." -> name b = ".." -> i = j.

(** Whether a source row shows the entry named "..". *)
Definition is_parent_row (self : DeviceFileSystem) (r : Z) : bool :=
  match nth_error (content self) (Z.to_nat r) with
  | Some e => (name e =? "..")%string
  | None => false
  end.

(** ** Construction and the calls the model receives *)

(** [DeviceFileSystem.__init__]: both fields start empty and the first
    listing is asked for.  The connections it makes are [deliver] above. *)
Definition init : M unit :=
  set_path [] ;;; set_content [] ;;; invalidate.

Definition fresh_model : DeviceFileSystem := state_after init (mk_model [] []).

(** Every entry point of [DeviceFileSystem]: the slots the file manager's
    signals are connected to and the methods the views and the proxy call. *)
Inductive call : Type :=
| call_invalidate
| call_on_ls (files : list entry)
| call_on_ls_fail
| call_on_mv (file new_file : string)
| call_on_mv_fail (file new_file : string)
| call_on_delete (file : string)
| call_on_delete_fail (file : string)
| call_do_delete (file : string)
| call_rowCount (parent : QModelIndex)
| call_columnCount (parent : QModelIndex)
| call_is_directory (ix : QModelIndex)
| call_enter_directory (ix : QModelIndex)
| call_data (ix : QModelIndex) (role : Z)
| call_get_root_index
| call_flags (ix : QModelIndex)
| call_setData (ix : QModelIndex) (value : string) (role : Z).

(** A call whose return value is not looked at. *)
Definition discard {A : Type} (m : M A) : M unit :=
  fun self => match m self with
              | (Return _, self1, out1) => (Return tt, self1, out1)
              | (Raised x, self1, out1) => (Raised x, self1, out1)
              end.

Section Calls.

Variable default_flags : QModelIndex -> Z.

Definition run (c : call) : M unit :=
  match c with
  | call_invalidate => invalidate
  | call_on_ls files => on_ls files
  | call_on_ls_fail => on_ls_fail
  | call_on_mv file new_file => on_mv file new_file
  | call_on_mv_fail file new_file => on_mv_fail file new_file
  | call_on_delete file => on_delete file
  | call_on_delete_fail file => on_delete_fail file
  | call_do_delete file => do_delete file
  | call_rowCount parent => discard (rowCount parent)
  | call_columnCount parent => discard (columnCount parent)
  | call_is_directory ix => discard (is_directory ix)
  | call_enter_directory ix => discard (enter_directory ix)
  | call_data ix role => discard (data ix role)
  | call_get_root_index => discard get_root_index
  | call_flags ix => discard (flags default_flags ix)
  | call_setData ix value role => discard (setData ix value role)
  end.

(** A history of calls, one after the other on the event thread; a call
    that raised leaves the state it had reached. *)
Fixpoint run_calls (cs : list call) (self : DeviceFileSystem)
  : DeviceFileSystem * list signal :=
  match cs with
  | [] => (self, [])
  | c :: rest =>
      match run c self with
      | (_, self1, out1) =>
          match run_calls rest self1 with
          | (self2, out2) => (self2, (out1 ++ out2)%list)
          end
      end
  end.

End Calls.

(** A method that only reads: it leaves the fields alone and sends nothing,
    whether it returns or raises. *)
Definition read_only {A : Type} (m : M A) : Prop :=
  forall self, state_after m self = self /\ emitted m self = [].

(** A row outside both of Python's index ranges. *)
Definition out_of_range (self : DeviceFileSystem) (r : Z) : Prop :=
  r < - Z.of_nat (length (content self)) \/ Z.of_nat (length (content self)) <= r.

(** ** The proxy's forwarding methods *)

(** [QModelIndex.isValid] *)
Definition isValid (ix : QModelIndex) : bool :=
  (0 <=? row ix) && (0 <=? column ix).

(** Position of a source row in the proxy's arrangement. *)
Fixpoint position (r : Z) (rows : list Z) : option Z :=
  match rows with
  | [] => None
  | x :: rest => if x =? r then Some 0
                 else match position r rest with
                      | Some k => Some (k + 1)
                      | None => None
                      end
  end.

Module SortedFileSystem.

Section Forwarding.

Variable foldCase : ascii -> ascii.

(** Qt's [mapToSource]: the invalid index, and any index beyond the
    mapping, map to the invalid index; a mapped proxy row maps to the
    source model's [index] of the source row it shows. *)
Definition mapToSource (proxy_index : QModelIndex) : M QModelIndex :=
  fun self =>
    let rows := proxy_to_source foldCase self in
    if isValid proxy_index
       && (row proxy_index <? Z.of_nat (length rows))
       && (column proxy_index <? 1)
    then index (nth (Z.to_nat (row proxy_index)) rows (-1)) self
    else ret invalid_index self.

(** Qt's [mapFromSource]: the invalid index and unmapped rows map to the
    invalid index, a mapped source row to the proxy row that shows it. *)
Definition mapFromSource (source_index : QModelIndex) : M QModelIndex :=
  fun self =>
    if isValid source_index && (column source_index <? 1)
    then match position (row source_index) (proxy_to_source foldCase self) with
         | Some k => ret (createIndex k (column source_index)) self
         | None => ret invalid_index self
         end
    else ret invalid_index self.

Definition is_directory (ix : QModelIndex) : M bool :=
  ix' <- mapToSource ix ;;
  is_directory ix'.

Definition get_root_index : M QModelIndex :=
  indexRoot <- get_root_index ;;
  mapFromSource indexRoot.

Definition enter_directory (ix : QModelIndex) : M QModelIndex :=
  ix' <- mapToSource ix ;;
  indexRoot <- enter_directory ix' ;;
  mapFromSource indexRoot.

End Forwarding.

End SortedFileSystem.

(** * Properties *)

(** ** Python indexing *)

Lemma getitem_front {A : Type} (l : list A) (i : Z) (a : A) :
  0 <= i -> nth_error l (Z.to_nat i) = Some a -> getitem l i = Return a.
Proof.
  intros Hi Hnth. unfold getitem.
  assert (Hlen : (Z.to_nat i < length l)%nat)
    by (apply nth_error_Some; congruence).
  destruct (i <? 0) eqn:Hneg; [apply Z.ltb_lt in Hneg; lia|].
  replace ((i <? 0) || (Z.of_nat (length l) <=? i)) with false.
  - now rewrite Hnth.
  - symmetry. apply orb_false_iff. split; [exact Hneg | apply Z.leb_gt; lia].
Qed.

Lemma getitem_beyond {A : Type} (l : list A) (i : Z) :
  Z.of_nat (length l) <= i -> getitem l i = Raised IndexError.
Proof.
  intros Hi. unfold getitem.
  destruct (i <? 0) eqn:Hneg; [apply Z.ltb_lt in Hneg; lia|].
  replace (Z.of_nat (length l) <=? i) with true by (symmetry; apply Z.leb_le; lia).
  now rewrite orb_true_r.
Qed.

Lemma getitem_back {A : Type} (l : list A) (i : Z) :
  - Z.of_nat (length l) <= i <= -1 ->
  exists a, nth_error l (Z.to_nat (Z.of_nat (length l) + i)) = Some a /\
            getitem l i = Return a.
Proof.
  intros Hi. unfold getitem.
  destruct (i <? 0) eqn:Hneg; [|apply Z.ltb_ge in Hneg; lia].
  set (n := Z.of_nat (length l)) in *.
  replace ((i + n <? 0) || (n <=? i + n)) with false.
  - destruct (nth_error l (Z.to_nat (i + n))) as [a|] eqn:Hnth.
    + exists a. split; [|reflexivity]. now rewrite Z.add_comm.
    + apply nth_error_None in Hnth. subst n. lia.
  - symmetry. apply orb_false_iff. split; [apply Z.ltb_ge | apply Z.leb_gt]; lia.
Qed.

Lemma getitem_In {A : Type} (l : list A) (i : Z) (a : A) :
  getitem l i = Return a -> In a l.
Proof.
  unfold getitem. intros H.
  destruct ((_ <? 0) || _); [discriminate|].
  destruct (nth_error l _) eqn:Hnth; [|discriminate].
  injection H as <-. eapply nth_error_In; eassumption.
Qed.

Lemma nth_error_last {A : Type} (l : list A) (a d : A) :
  nth_error l (length l - 1) = Some a -> last l d = a.
Proof.
  induction l as [|x l IH]; [discriminate|].
  destruct l as [|y l].
  - simpl. now intros [= <-].
  - intros H. change (last (x :: y :: l) d) with (last (y :: l) d).
    apply IH. simpl in *. now rewrite Nat.sub_0_r in *.
Qed.

(** ** Running the methods *)

Lemma content_at_run (self : DeviceFileSystem) (ix : QModelIndex) :
  content_at ix self = (getitem (content self) (row ix), self, []).
Proof.
  unfold content_at, bind, get_content, lift. simpl.
  now destruct (getitem (content self) (row ix)).
Qed.

Lemma bind_run {A B : Type} (m : M A) (f : A -> M B) (self self1 : DeviceFileSystem)
      (a : A) (out1 : list signal) :
  m self = (Return a, self1, out1) ->
  bind m f self = (let '(o, self2, out2) := f a self1 in (o, self2, (out1 ++ out2)%list)).
Proof. intros H. unfold bind. now rewrite H. Qed.

Lemma bind_raise {A B : Type} (m : M A) (f : A -> M B) (self self1 : DeviceFileSystem)
      (e : exn) (out1 : list signal) :
  m self = (Raised e, self1, out1) -> bind m f self = (Raised e, self1, out1).
Proof. intros H. unfold bind. now rewrite H. Qed.

Lemma content_at_Return (self : DeviceFileSystem) (ix : QModelIndex) (e : entry) :
  getitem (content self) (row ix) = Return e ->
  content_at ix self = (Return e, self, []).
Proof. intros H. now rewrite content_at_run, H. Qed.

Lemma content_at_Raised (self : DeviceFileSystem) (ix : QModelIndex) (x : exn) :
  getitem (content self) (row ix) = Raised x ->
  content_at ix self = (Raised x, self, []).
Proof. intros H. now rewrite content_at_run, H. Qed.

Lemma model_eta (self : DeviceFileSystem) :
  mk_model (path self) (content self) = self.
Proof. now destruct self. Qed.

Lemma index_sentinel (self : DeviceFileSystem) :
  index (-1) self = (Return invalid_index, self, []).
Proof. reflexivity. Qed.

Lemma is_directory_run (self : DeviceFileSystem) (ix : QModelIndex) (e : entry) :
  getitem (content self) (row ix) = Return e ->
  is_directory ix self = (Return (is_dir e), self, []).
Proof.
  intros H. unfold is_directory.
  rewrite (bind_run _ _ _ _ _ _ (content_at_Return _ _ _ H)). reflexivity.
Qed.

Lemma data_display_run (self : DeviceFileSystem) (ix : QModelIndex) (e : entry) :
  getitem (content self) (row ix) = Return e ->
  data ix DisplayRole self = (Return (QString (name e)), self, []).
Proof.
  intros H. unfold data.
  rewrite (bind_run _ _ _ _ _ _ (content_at_Return _ _ _ H)). reflexivity.
Qed.

Lemma enter_directory_run (self : DeviceFileSystem) (ix : QModelIndex) (e : entry) :
  getitem (content self) (row ix) = Return e ->
  (name e = ".." -> path self <> []) ->
  enter_directory ix self =
    (Return invalid_index,
     mk_model (entered (path self) e) (content self),
     [list_files (join (entered (path self) e))]).
Proof.
  intros H Hpath. unfold enter_directory.
  rewrite (bind_run _ _ _ _ _ _ (content_at_Return _ _ _ H)).
  unfold entered. destruct (name e =? "..")%string eqn:Hname.
  - apply String.eqb_eq in Hname. specialize (Hpath Hname).
    destruct self as [p c]. simpl in *.
    destruct p as [|seg p]; [congruence|]. reflexivity.
  - destruct (is_dir e).
    + reflexivity.
    + unfold bind, ret, get_path, emit. simpl. now rewrite model_eta.
Qed.

Lemma enter_directory_pop_empty (self : DeviceFileSystem) (ix : QModelIndex) (e : entry) :
  getitem (content self) (row ix) = Return e ->
  name e = ".." -> path self = [] ->
  enter_directory ix self = (Raised IndexError, self, []).
Proof.
  intros H Hname Hpath. unfold enter_directory.
  rewrite (bind_run _ _ _ _ _ _ (content_at_Return _ _ _ H)).
  rewrite Hname. simpl. unfold bind, path_pop, bind, get_path. rewrite Hpath. reflexivity.
Qed.

Lemma on_ls_run (self : DeviceFileSystem) (files : list entry) :
  on_ls files self =
    (let c := (files ++ match path self with [] => [] | _ :: _ => [parent_entry] end)%list in
     (Return tt, mk_model (path self) c,
      [dataChanged (createIndex 0 0) (createIndex 0 (Z.of_nat (length c)))])).
Proof.
  destruct self as [p c]. destruct p as [|seg p].
  - unfold on_ls, bind; simpl. now rewrite app_nil_r.
  - unfold on_ls, bind; simpl. reflexivity.
Qed.

(** ** The listing and the path *)

(** C6: after a successful list response the listing is the received
    sequence, followed by the single parent entry (named "..", a directory)
    exactly when the current path is not empty; at the root it is the
    received sequence itself.  The path is left as it was. *)
Theorem on_ls_listing (self : DeviceFileSystem) (files : list entry) :
  content (state_after (on_ls files) self) =
    (files ++ match path self with
              | [] => []
              | _ :: _ => [mk_entry ".." true 1]
              end)%list /\
  path (state_after (on_ls files) self) = path self /\
  result_of (on_ls files) self = Return tt.
Proof.
  unfold state_after, result_of. rewrite on_ls_run. simpl. auto.
Qed.

(** C9: [is_directory] on a row at or beyond the length of the listing
    raises [IndexError]; no boolean is returned. *)
Theorem is_directory_beyond (self : DeviceFileSystem) (ix : QModelIndex) :
  Z.of_nat (length (content self)) <= row ix ->
  is_directory ix self = (Raised IndexError, self, []) /\
  forall b, result_of (is_directory ix) self <> Return b.
Proof.
  intros H.
  assert (E : is_directory ix self = (Raised IndexError, self, [])).
  { unfold is_directory.
    now rewrite (bind_raise _ _ _ _ _ _
                   (content_at_Raised _ _ _ (getitem_beyond _ _ H))). }
  split; [exact E|]. intros b. unfold result_of. rewrite E. discriminate.
Qed.

Lemma is_directory_beyond_witness :
  let self := mk_model ["alpha"] [mk_entry "x.txt" false 5; parent_entry] in
  is_directory (createIndex 2 0) self = (Raised IndexError, self, []) /\
  forall b, result_of (is_directory (createIndex 2 0)) self <> Return b.
Proof.
  intros self. apply (is_directory_beyond self (createIndex 2 0)).
  simpl. lia.
Defined.

(** C10: on a row [r] with [-n <= r <= -1], [n] the length of the listing,
    [is_directory] raises nothing and returns the flag of the entry at
    position [n + r], as Python's negative indexing has it.  The root index
    handed out by [get_root_index] has row -1, so asking about it is
    answered exactly like asking about the last row. *)
Theorem is_directory_negative_row (self : DeviceFileSystem) (ix : QModelIndex) :
  - Z.of_nat (length (content self)) <= row ix <= -1 ->
  (exists e,
     nth_error (content self) (Z.to_nat (Z.of_nat (length (content self)) + row ix)) = Some e /\
     is_directory ix self = (Return (is_dir e), self, [])) /\
  (exists root,
     get_root_index self = (Return root, self, []) /\
     row root = -1 /\
     is_directory root self =
       is_directory (createIndex (Z.of_nat (length (content self)) - 1) 0) self /\
     result_of (is_directory root) self =
       Return (is_dir (last (content self) parent_entry))).
Proof.
  intros H. split.
  - destruct (getitem_back (content self) (row ix) H) as [e [Hnth Hget]].
    exists e. split; [exact Hnth|]. now apply is_directory_run.
  - exists invalid_index. split; [apply index_sentinel|]. split; [reflexivity|].
    assert (Hlast : - Z.of_nat (length (content self)) <= -1 <= -1) by lia.
    destruct (getitem_back (content self) (-1) Hlast) as [e [Hnth Hget]].
    pose proof (is_directory_run self invalid_index e Hget) as Hroot.
    assert (Hfront : getitem (content self) (Z.of_nat (length (content self)) - 1) = Return e).
    { apply getitem_front; [lia|].
      now replace (Z.of_nat (length (content self)) - 1)
        with (Z.of_nat (length (content self)) + -1) by lia. }
    split; [now rewrite (is_directory_run self (createIndex _ 0) e Hfront)|].
    unfold result_of. rewrite Hroot. simpl. f_equal. f_equal.
    replace (Z.to_nat (Z.of_nat (length (content self)) + -1))
      with (length (content self) - 1)%nat in Hnth by lia.
    symmetry. now apply nth_error_last.
Qed.

Lemma is_directory_negative_row_witness :
  let self := mk_model [] [mk_entry "alpha" true 0; mk_entry "b.txt" false 120] in
  is_directory (createIndex (-1) (-1)) self = (Return false, self, []) /\
  is_directory (createIndex (-2) 0) self = (Return true, self, []).
Proof.
  intros self. split.
  - destruct (is_directory_negative_row self (createIndex (-1) (-1))) as [[e [Hnth Hrun]] _].
    + simpl. lia.
    + simpl in Hnth. injection Hnth as <-. exact Hrun.
  - reflexivity.
Defined.

(** ** Navigation *)

Lemma in_range_getitem (self : DeviceFileSystem) (ix : QModelIndex) (e : entry) :
  in_range self ix ->
  nth_error (content self) (Z.to_nat (row ix)) = Some e ->
  getitem (content self) (row ix) = Return e.
Proof. intros [Hlo _] Hnth. now apply getitem_front. Qed.

(** C7, as the code has it: on an in-range row, and with a path that is not
    empty when the entry is named "..", [enter_directory] drops the last
    segment of the path for "..", appends the name for any other directory,
    leaves the path alone for a file; it sends exactly one list request, for
    the resulting path joined with "/", returns the root index (the invalid
    index, row -1) and leaves the listing untouched. *)
Theorem enter_directory_in_range (self : DeviceFileSystem) (ix : QModelIndex) (e : entry) :
  in_range self ix ->
  nth_error (content self) (Z.to_nat (row ix)) = Some e ->
  (name e = ".." -> path self <> []) ->
  path (state_after (enter_directory ix) self) =
    (if (name e =? "..")%string then removelast (path self)
     else if is_dir e then (path self ++ [name e])%list
     else path self) /\
  content (state_after (enter_directory ix) self) = content self /\
  emitted (enter_directory ix) self =
    [list_files (join (path (state_after (enter_directory ix) self)))] /\
  result_of (enter_directory ix) self =
    result_of get_root_index (state_after (enter_directory ix) self) /\
  result_of (enter_directory ix) self = Return invalid_index.
Proof.
  intros Hin Hnth Hpath.
  unfold state_after, emitted, result_of.
  rewrite (enter_directory_run self ix e (in_range_getitem _ _ _ Hin Hnth) Hpath).
  simpl. repeat split; reflexivity.
Qed.

Lemma enter_directory_in_range_witness :
  let self := mk_model ["alpha"] [mk_entry "sub" true 0; parent_entry] in
  state_after (enter_directory (createIndex 1 0)) self = mk_model [] (content self) /\
  emitted (enter_directory (createIndex 1 0)) self = [list_files ""].
Proof.
  intros self.
  destruct (enter_directory_in_range self (createIndex 1 0) parent_entry)
    as (Hp & Hc & Hout & _).
  - unfold in_range. simpl. lia.
  - reflexivity.
  - simpl. discriminate.
  - split; [|exact Hout].
    destruct (state_after (enter_directory (createIndex 1 0)) self) as [p c].
    simpl in Hp, Hc. now rewrite Hp, Hc.
Defined.

(** C7 as stated fails: a listing that still shows ".." while the path is
    already empty.  That state is reached from the initial one by entering
    "alpha", receiving its listing, and going up before the listing of the
    root has arrived.  Going up once more raises [IndexError] inside
    [path.pop()]: no list request is sent and no index is returned. *)
Lemma enter_directory_parent_at_root :
  let start := mk_model [] [] in
  let s1 := state_after (on_ls [mk_entry "alpha" true 0]) start in
  let s2 := state_after (enter_directory (createIndex 0 0)) s1 in
  let s3 := state_after (on_ls []) s2 in
  let s4 := state_after (enter_directory (createIndex 0 0)) s3 in
  s4 = mk_model [] [parent_entry] /\
  in_range s4 (createIndex 0 0) /\
  nth_error (content s4) 0 = Some parent_entry /\
  enter_directory (createIndex 0 0) s4 = (Raised IndexError, s4, []).
Proof.
  simpl. unfold in_range. simpl. repeat split; try reflexivity; lia.
Qed.

(** C8: entering a directory (not named "..") and then, once the listing of
    the deeper path has arrived, entering the ".." entry of that listing
    brings the path back to what it was.  The arrived listing always has
    such an entry: the one appended after the received files. *)
Theorem enter_then_parent_restores_path
        (self : DeviceFileSystem) (ix : QModelIndex) (e : entry) (files : list entry) :
  in_range self ix ->
  nth_error (content self) (Z.to_nat (row ix)) = Some e ->
  is_dir e = true ->
  name e <> ".." ->
  let deeper := state_after (on_ls files) (state_after (enter_directory ix) self) in
  (in_range deeper (createIndex (Z.of_nat (length files)) 0) /\
   nth_error (content deeper) (length files) = Some parent_entry) /\
  forall ix' e',
    in_range deeper ix' ->
    nth_error (content deeper) (Z.to_nat (row ix')) = Some e' ->
    name e' = ".." ->
    path (state_after (enter_directory ix') deeper) = path self /\
    emitted (enter_directory ix') deeper = [list_files (join (path self))].
Proof.
  intros Hin Hnth Hdir Hname deeper.
  assert (Hne : (name e =? "..")%string = false) by now apply String.eqb_neq.
  assert (Hdeeper : deeper = mk_model (path self ++ [name e]) (files ++ [parent_entry])).
  { unfold deeper, state_after.
    rewrite (enter_directory_run self ix e (in_range_getitem _ _ _ Hin Hnth))
      by (intros E; contradiction).
    unfold entered. rewrite Hne, Hdir. simpl. rewrite on_ls_run. simpl.
    now destruct (path self). }
  rewrite Hdeeper. split.
  - split.
    + unfold in_range. simpl. rewrite length_app. simpl. lia.
    + simpl. rewrite nth_error_app2 by lia. now rewrite Nat.sub_diag.
  - intros ix' e' Hin' Hnth' Hname'.
    unfold state_after, emitted.
    rewrite (enter_directory_run _ ix' e' (in_range_getitem _ _ _ Hin' Hnth')).
    + unfold entered. rewrite Hname'. simpl. now rewrite removelast_last.
    + intros _. simpl. now destruct (path self).
Qed.

Lemma enter_then_parent_restores_path_witness :
  let self := mk_model ["lib"] [mk_entry "foo" true 0; parent_entry] in
  let deeper := state_after (on_ls [mk_entry "x.txt" false 5])
                            (state_after (enter_directory (createIndex 0 0)) self) in
  path deeper = ["lib"; "foo"] /\
  path (state_after (enter_directory (createIndex 1 0)) deeper) = ["lib"].
Proof.
  intros self deeper. split; [reflexivity|].
  apply (enter_then_parent_restores_path self (createIndex 0 0)
           (mk_entry "foo" true 0) [mk_entry "x.txt" false 5])
    with (ix' := createIndex 1 0) (e' := parent_entry).
  - unfold in_range. simpl. lia.
  - reflexivity.
  - reflexivity.
  - simpl. discriminate.
  - unfold in_range. simpl. lia.
  - reflexivity.
  - reflexivity.
Defined.

(** ** Renaming and deleting *)

Lemma setData_run (self : DeviceFileSystem) (ix : QModelIndex) (e : entry)
      (value : string) (role : Z) :
  getitem (content self) (row ix) = Return e ->
  setData ix value role self =
    if (role =? DisplayRole) || (role =? EditRole)
    then (Return true, self,
          [printed ["Renaming on device: "; (join (path self) ++ "/") ++ name e;
                    "to"; (join (path self) ++ "/") ++ value];
           rename ((join (path self) ++ "/") ++ name e)
                  ((join (path self) ++ "/") ++ value);
           list_files (join (path self))])
    else (Return false, self, []).
Proof.
  intros H. unfold setData.
  rewrite (bind_run _ _ _ _ _ _ (content_at_Return _ _ _ H)).
  now destruct ((role =? DisplayRole) || (role =? EditRole)).
Qed.

Lemma setData_state (self : DeviceFileSystem) (ix : QModelIndex)
      (value : string) (role : Z) :
  state_after (setData ix value role) self = self.
Proof.
  unfold state_after.
  destruct (getitem (content self) (row ix)) as [e|x] eqn:H.
  - rewrite (setData_run self ix e value role H).
    now destruct ((role =? DisplayRole) || (role =? EditRole)).
  - unfold setData.
    now rewrite (bind_raise _ _ _ _ _ _ (content_at_Raised _ _ _ H)).
Qed.

(** C1 as stated fails: [setData] never looks at the name.  One level
    below the root, a rename of the ".." row to "x" sends the rename command
    for "a/..", asks for a new listing and reports success. *)
Lemma setData_renames_parent_marker :
  let self := mk_model ["a"] [mk_entry "f.py" false 10; parent_entry] in
  nth_error (content self) 1 = Some parent_entry /\
  setData (createIndex 1 0) "x" EditRole self =
    (Return true, self,
     [printed ["Renaming on device: "; "a/.."; "to"; "a/x"];
      rename "a/.." "a/x";
      list_files "a"]).
Proof. split; reflexivity. Qed.

(** C1, as the code has it: the ".." row is kept from being renamed by
    [flags], which returns the default flags for it without adding
    [ItemIsEditable].  [setData] itself does not check the name: called on
    that row with the display or the edit role it sends the rename command
    for "<path>/..", then one list request, and returns [True]; with any
    other role it does nothing and returns [False].  The state is unchanged
    either way. *)
Theorem parent_marker_rename_gate
        (default_flags : QModelIndex -> Z)
        (self : DeviceFileSystem) (ix : QModelIndex) (e : entry)
        (value : string) (role : Z) :
  in_range self ix ->
  nth_error (content self) (Z.to_nat (row ix)) = Some e ->
  name e = ".." ->
  flags default_flags ix self = (Return (default_flags ix), self, []) /\
  setData ix value role self =
    (if (role =? DisplayRole) || (role =? EditRole)
     then (Return true, self,
           [printed ["Renaming on device: "; (join (path self) ++ "/") ++ "..";
                     "to"; (join (path self) ++ "/") ++ value];
            rename ((join (path self) ++ "/") ++ "..")
                   ((join (path self) ++ "/") ++ value);
            list_files (join (path self))])
     else (Return false, self, [])).
Proof.
  intros Hin Hnth Hname.
  pose proof (in_range_getitem _ _ _ Hin Hnth) as Hget. split.
  - unfold flags.
    rewrite (bind_run _ _ _ _ _ _ (content_at_Return _ _ _ Hget)).
    now rewrite Hname.
  - rewrite (setData_run self ix e value role Hget). now rewrite Hname.
Qed.

Lemma parent_marker_rename_gate_witness :
  let self := mk_model ["a"] [mk_entry "f.py" false 10; parent_entry] in
  flags (fun _ => 161) (createIndex 1 0) self = (Return 161, self, []) /\
  setData (createIndex 1 0) "x" DecorationRole self = (Return false, self, []).
Proof.
  intros self.
  apply (parent_marker_rename_gate (fun _ => 161) self (createIndex 1 0)
           parent_entry "x" DecorationRole).
  - unfold in_range. simpl. lia.
  - reflexivity.
  - reflexivity.
Defined.

(** C2: whatever the delete or rename request was, when its completion
    arrives (success or failure alike) the model sends exactly one signal, a
    list request for the current path, and that path is the one the model
    had before the request: neither the request nor the completion changes
    it. *)
Theorem completion_relists_current_path
        (self : DeviceFileSystem) (r : request) (c : completion) :
  answers c r = true ->
  let requested := state_after (issue r) self in
  deliver c requested = (Return tt, requested, [list_files (join (path self))]) /\
  list_requests (emitted (deliver c) requested) = [join (path self)] /\
  path requested = path self /\
  path (state_after (deliver c) requested) = path self.
Proof.
  intros Hans requested.
  assert (Hreq : requested = self).
  { unfold requested. destruct r as [file | ix value role].
    - reflexivity.
    - unfold issue, state_after, bind.
      pose proof (setData_state self ix value role) as Hs.
      unfold state_after in Hs.
      destruct (setData ix value role self) as [[[b|x] s1] out1]; simpl in *; congruence. }
  rewrite Hreq.
  assert (Hrun : deliver c self = (Return tt, self, [list_files (join (path self))])).
  { destruct r, c; try discriminate Hans; reflexivity. }
  unfold emitted, state_after. rewrite Hrun. simpl. auto.
Qed.

Lemma completion_relists_current_path_witness :
  let self := mk_model [] [mk_entry "alpha" true 0; mk_entry "b.txt" false 120] in
  deliver (on_delete_file "/b.txt") (state_after (issue (delete_request "b.txt")) self) =
    (Return tt, self, [list_files ""]).
Proof.
  intros self.
  apply (completion_relists_current_path self (delete_request "b.txt")
           (on_delete_file "/b.txt")).
  reflexivity.
Defined.

(** ** Case-insensitive comparison of names *)

Section CompareCi.

Variable foldCase : ascii -> ascii.

Lemma compare_ci_antisym (a b : string) :
  compare_ci foldCase b a = CompOpp (compare_ci foldCase a b).
Proof.
  revert b. induction a as [|x a IH]; intros [|y b]; simpl; try reflexivity.
  rewrite (N.compare_antisym (N_of_ascii (foldCase x))).
  destruct (N_of_ascii (foldCase x) ?= N_of_ascii (foldCase y))%N; simpl; auto.
Qed.

Lemma compare_ci_eq_iff (a b : string) :
  compare_ci foldCase a b = Eq <-> fold_name foldCase a = fold_name foldCase b.
Proof.
  unfold fold_name. revert b.
  induction a as [|x a IH]; intros [|y b]; simpl; split; intros H;
    try reflexivity; try discriminate.
  - destruct (N_of_ascii (foldCase x) ?= N_of_ascii (foldCase y))%N eqn:E;
      try discriminate.
    apply N.compare_eq_iff in E. rewrite E. f_equal. now apply IH.
  - injection H as Hh Ht. rewrite Hh, N.compare_refl. now apply IH.
Qed.

Lemma compare_ci_refl (a : string) : compare_ci foldCase a a = Eq.
Proof. now apply compare_ci_eq_iff. Qed.

Lemma compare_ci_eq_left (a b c : string) :
  compare_ci foldCase a b = Eq ->
  compare_ci foldCase a c = compare_ci foldCase b c.
Proof.
  revert b c. induction a as [|x a IH]; intros [|y b] [|z c]; simpl;
    try reflexivity; try discriminate; try (intros _; reflexivity).
  destruct (N_of_ascii (foldCase x) ?= N_of_ascii (foldCase y))%N eqn:E;
    try discriminate.
  intros H. apply N.compare_eq_iff in E. rewrite E.
  destruct (N_of_ascii (foldCase y) ?= N_of_ascii (foldCase z))%N; auto.
Qed.

Lemma compare_ci_lt_trans (a b c : string) :
  compare_ci foldCase a b = Lt ->
  compare_ci foldCase b c = Lt ->
  compare_ci foldCase a c = Lt.
Proof.
  revert b c. induction a as [|x a IH]; intros [|y b] [|z c]; simpl;
    try reflexivity; try discriminate.
  destruct (N_of_ascii (foldCase x) ?= N_of_ascii (foldCase y))%N eqn:Exy;
    try discriminate;
    destruct (N_of_ascii (foldCase y) ?= N_of_ascii (foldCase z))%N eqn:Eyz;
    try discriminate; intros Hab Hbc.
  - apply N.compare_eq_iff in Exy, Eyz. rewrite Exy, Eyz, N.compare_refl.
    now apply (IH b c).
  - apply N.compare_eq_iff in Exy. now rewrite Exy, Eyz.
  - apply N.compare_eq_iff in Eyz. now rewrite <- Eyz, Exy.
  - rewrite N.compare_lt_iff in Exy, Eyz.
    replace (N_of_ascii (foldCase x) ?= N_of_ascii (foldCase z))%N with Lt; auto.
    symmetry. apply N.compare_lt_iff. lia.
Qed.

Lemma compare_ci_lt_split (a b c : string) :
  compare_ci foldCase a c = Lt ->
  compare_ci foldCase a b = Lt \/ compare_ci foldCase b c = Lt.
Proof.
  intros Hac. destruct (compare_ci foldCase a b) eqn:Hab.
  - right. now rewrite <- (compare_ci_eq_left a b c Hab).
  - now left.
  - right. apply (compare_ci_lt_trans b a c); [|exact Hac].
    now rewrite compare_ci_antisym, Hab.
Qed.

(** ** The comparison on entries *)

Lemma precedes_parent_left (a b : entry) :
  name a = ".." -> precedes foldCase a b = true.
Proof. intros H. unfold precedes. now rewrite H. Qed.

Lemma precedes_parent_right (a b : entry) :
  name a <> ".." -> name b = ".." -> precedes foldCase a b = false.
Proof.
  intros Ha Hb. unfold precedes.
  apply String.eqb_neq in Ha. now rewrite Ha, Hb.
Qed.

Lemma precedes_plain (a b : entry) :
  name a <> ".." -> name b <> ".." ->
  precedes foldCase a b =
    if negb (is_dir a) && is_dir b then false
    else if is_dir a && negb (is_dir b) then true
    else match compare_ci foldCase (name a) (name b) with Lt => true | _ => false end.
Proof.
  intros Ha Hb. unfold precedes.
  apply String.eqb_neq in Ha, Hb. now rewrite Ha, Hb.
Qed.

Lemma precedes_irrefl (a : entry) :
  name a <> ".." -> precedes foldCase a a = false.
Proof.
  intros Ha. rewrite precedes_plain by assumption.
  rewrite compare_ci_refl. now destruct (is_dir a).
Qed.

Lemma precedes_trans (a b c : entry) :
  precedes foldCase a b = true -> precedes foldCase b c = true ->
  precedes foldCase a c = true.
Proof.
  destruct (string_dec (name a) "..") as [Ha|Ha];
    [intros; now apply precedes_parent_left|].
  destruct (string_dec (name b) "..") as [Hb|Hb];
    [now rewrite (precedes_parent_right a b Ha Hb)|].
  destruct (string_dec (name c) "..") as [Hc|Hc];
    [now rewrite (precedes_parent_right b c Hb Hc)|].
  rewrite !precedes_plain by assumption.
  destruct (is_dir a), (is_dir b), (is_dir c); simpl; try discriminate; auto;
    destruct (compare_ci foldCase (name a) (name b)) eqn:Hab; try discriminate;
    destruct (compare_ci foldCase (name b) (name c)) eqn:Hbc; try discriminate;
    now rewrite (compare_ci_lt_trans _ _ _ Hab Hbc).
Qed.

Lemma precedes_asym (a b : entry) :
  name a <> ".." \/ name b <> ".." ->
  precedes foldCase a b = true -> precedes foldCase b a = false.
Proof.
  intros Hab.
  destruct (string_dec (name a) "..") as [Ha|Ha];
    destruct (string_dec (name b) "..") as [Hb|Hb].
  - tauto.
  - intros _. now apply precedes_parent_right.
  - now rewrite (precedes_parent_right a b Ha Hb).
  - rewrite !precedes_plain by assumption.
    rewrite (compare_ci_antisym (name a) (name b)).
    destruct (is_dir a), (is_dir b); simpl; try discriminate; auto;
      now destruct (compare_ci foldCase (name a) (name b)).
Qed.

Lemma precedes_split (a b c : entry) :
  precedes foldCase a c = true ->
  precedes foldCase a b = true \/ precedes foldCase b c = true.
Proof.
  destruct (string_dec (name a) "..") as [Ha|Ha];
    [intros; left; now apply precedes_parent_left|].
  destruct (string_dec (name b) "..") as [Hb|Hb];
    [intros; right; now apply precedes_parent_left|].
  destruct (string_dec (name c) "..") as [Hc|Hc];
    [now rewrite (precedes_parent_right a c Ha Hc)|].
  rewrite !precedes_plain by assumption.
  destruct (is_dir a), (is_dir b), (is_dir c); simpl; try discriminate; auto;
    destruct (compare_ci foldCase (name a) (name c)) eqn:Hac; try discriminate;
    intros _; destruct (compare_ci_lt_split _ (name b) _ Hac) as [H|H];
    rewrite H; auto.
Qed.

Lemma precedes_neither (a b : entry) :
  precedes foldCase a b = false -> precedes foldCase b a = false ->
  name a <> ".." /\ name b <> ".." /\
  is_dir a = is_dir b /\ fold_name foldCase (name a) = fold_name foldCase (name b).
Proof.
  destruct (string_dec (name a) "..") as [Ha|Ha];
    [now rewrite (precedes_parent_left a b Ha)|].
  destruct (string_dec (name b) "..") as [Hb|Hb];
    [intros _; now rewrite (precedes_parent_left b a Hb)|].
  rewrite !precedes_plain by assumption.
  rewrite (compare_ci_antisym (name a) (name b)).
  destruct (is_dir a), (is_dir b); simpl; try discriminate;
    destruct (compare_ci foldCase (name a) (name b)) eqn:Hab; simpl;
    try discriminate; intros _ _; repeat split; auto;
    now apply compare_ci_eq_iff.
Qed.

(** ** [lessThan] on rows *)

Lemma lessThan_run (self : DeviceFileSystem) (l r : QModelIndex) (a b : entry) :
  entry_at self (row l) a -> entry_at self (row r) b ->
  lessThan foldCase l r self = (Return (precedes foldCase a b), self, []).
Proof.
  unfold entry_at. intros Ha Hb. unfold lessThan, super_lessThan.
  rewrite (bind_run _ _ _ _ _ _ (data_display_run _ _ _ Ha)).
  rewrite (bind_run _ _ _ _ _ _ (data_display_run _ _ _ Hb)).
  unfold precedes, is_string.
  destruct (name a =? "..")%string; [reflexivity|].
  destruct (name b =? "..")%string; [reflexivity|].
  rewrite (bind_run _ _ _ _ _ _ (is_directory_run _ _ _ Ha)).
  rewrite (bind_run _ _ _ _ _ _ (is_directory_run _ _ _ Hb)).
  destruct (negb (is_dir a) && is_dir b); [reflexivity|].
  destruct (is_dir a && negb (is_dir b)); [reflexivity|].
  rewrite (bind_run _ _ _ _ _ _ (data_display_run _ _ _ Ha)).
  rewrite (bind_run _ _ _ _ _ _ (data_display_run _ _ _ Hb)).
  reflexivity.
Qed.

Lemma row_lessThan_run (self : DeviceFileSystem) (l r : Z) (a b : entry) :
  entry_at self l a -> entry_at self r b ->
  row_lessThan foldCase self l r = precedes foldCase a b.
Proof.
  intros Ha Hb. unfold row_lessThan, result_of.
  now rewrite (lessThan_run self (createIndex l 0) (createIndex r 0) a b).
Qed.

End CompareCi.

(** ** The stable sort *)

Section StableSort.

Variable lt : Z -> Z -> bool.

Lemma insert_row_perm (x : Z) (rows : list Z) :
  Permutation (x :: rows) (insert_row lt x rows).
Proof.
  induction rows as [|y rest IH]; simpl; [reflexivity|].
  destruct (lt y x); [|reflexivity].
  rewrite perm_swap. now apply perm_skip.
Qed.

Lemma stable_sort_perm (rows : list Z) : Permutation rows (stable_sort lt rows).
Proof.
  induction rows as [|x rest IH]; simpl; [reflexivity|].
  rewrite <- insert_row_perm. now apply perm_skip.
Qed.

Lemma insert_row_ascending (x : Z) (rows : list Z) :
  (forall y, In y rows -> lt y x = true -> lt x y = false) ->
  (forall y z, In y rows -> In z rows -> lt z x = true ->
               lt z y = true \/ lt y x = true) ->
  ascending lt rows -> ascending lt (insert_row lt x rows).
Proof.
  unfold ascending. intros Hasym Hsplit Hsorted.
  induction Hsorted as [|y rest Hrest IH Hy]; simpl.
  - constructor; constructor.
  - destruct (lt y x) eqn:Hyx.
    + constructor.
      * apply IH.
        -- intros y' Hin. apply Hasym. now right.
        -- intros y' z Hy' Hz. apply Hsplit; now right.
      * apply (Permutation_Forall (insert_row_perm x rest)).
        constructor; [|exact Hy]. apply Hasym; [now left | exact Hyx].
    + constructor; [now constructor|].
      constructor; [exact Hyx|].
      rewrite Forall_forall in *. intros z Hz.
      destruct (lt z x) eqn:Hzx; [|reflexivity].
      destruct (Hsplit y z (or_introl eq_refl) (or_intror Hz) Hzx) as [H|H].
      * rewrite (Hy z Hz) in H. discriminate.
      * congruence.
Qed.

Lemma stable_sort_ascending (rows : list Z) :
  NoDup rows ->
  (forall x y, In x rows -> In y rows -> x <> y -> lt y x = true -> lt x y = false) ->
  (forall x y z, In x rows -> In y rows -> In z rows -> lt z x = true ->
                 lt z y = true \/ lt y x = true) ->
  ascending lt (stable_sort lt rows).
Proof.
  induction rows as [|x rest IH]; intros Hnodup Hasym Hsplit; simpl.
  - constructor.
  - inversion Hnodup as [|x' rest' Hnotin Hnodup']; subst.
    assert (Hmem : forall y, In y (stable_sort lt rest) -> In y rest).
    { intros y. apply Permutation_in. symmetry. apply stable_sort_perm. }
    apply insert_row_ascending.
    + intros y Hy. apply Hasym; [now left | right; now apply Hmem |].
      intros ->. apply Hnotin. now apply Hmem.
    + intros y z Hy Hz. apply Hsplit; [now left | right; now apply Hmem ..].
    + apply IH; [exact Hnodup' | |].
      * intros a b Ha Hb. apply Hasym; now right.
      * intros a b c Ha Hb Hc. apply Hsplit; now right.
Qed.

Lemma ascending_nth (rows : list Z) (i j : nat) (ri rj : Z) :
  ascending lt rows -> (i < j)%nat ->
  nth_error rows i = Some ri -> nth_error rows j = Some rj ->
  lt rj ri = false.
Proof.
  unfold ascending. intros Hsorted. revert i j.
  induction Hsorted as [|y rest Hrest IH Hy]; intros i j Hij Hi Hj.
  - destruct i; discriminate.
  - destruct j as [|j]; [lia|]. simpl in Hj. destruct i as [|i].
    + simpl in Hi. injection Hi as <-.
      rewrite Forall_forall in Hy. apply Hy. eapply nth_error_In; eassumption.
    + simpl in Hi. apply (IH i j); [lia | assumption ..].
Qed.

(** A class of rows that precede every row and are preceded by none outside
    the class ends up on top. *)
Lemma stable_sort_top (top : Z -> bool) (rows : list Z) (r : Z) :
  (forall x y, In x rows -> In y rows -> top x = true -> lt x y = true) ->
  (forall x y, In x rows -> In y rows -> top x = false -> top y = true -> lt x y = false) ->
  In r rows -> top r = true ->
  exists first rest, stable_sort lt rows = first :: rest /\ top first = true.
Proof.
  intros Hfirst Hnever. revert r.
  induction rows as [|x rest IH]; intros r Hin Hr; [contradiction|].
  pose proof (stable_sort_perm rest) as Hperm.
  simpl. destruct (stable_sort lt rest) as [|y sorted] eqn:Hs.
  - apply Permutation_sym, Permutation_nil in Hperm.
    subst rest. destruct Hin as [->|[]]. simpl. eauto.
  - assert (Hy : In y rest).
    { apply (Permutation_in y (Permutation_sym Hperm)). now left. }
    simpl. destruct (top y) eqn:Hty.
    + rewrite (Hfirst y x) by (simpl; auto). eauto.
    + destruct (top x) eqn:Htx.
      * rewrite (Hnever y x) by (simpl; auto). eauto.
      * destruct Hin as [->|Hin]; [congruence|].
        destruct (IH (fun a b Ha Hb => Hfirst a b (or_intror Ha) (or_intror Hb))
                     (fun a b Ha Hb => Hnever a b (or_intror Ha) (or_intror Hb))
                     r Hin Hr) as (first & rest' & Heq & Htop).
        injection Heq as <- <-. congruence.
Qed.

End StableSort.

(** ** The proxy's rows *)

Lemma source_rows_In (self : DeviceFileSystem) (r : Z) :
  In r (source_rows self) <-> 0 <= r < Z.of_nat (length (content self)).
Proof.
  unfold source_rows. rewrite in_map_iff. split.
  - intros (k & <- & Hk). apply in_seq in Hk. lia.
  - intros Hr. exists (Z.to_nat r). split; [lia|]. apply in_seq. lia.
Qed.

Lemma source_rows_NoDup (self : DeviceFileSystem) : NoDup (source_rows self).
Proof.
  unfold source_rows. apply Finite.Injective_map_NoDup.
  - intros a b. apply Nat2Z.inj.
  - apply seq_NoDup.
Qed.

Lemma source_row_entry (self : DeviceFileSystem) (r : Z) :
  In r (source_rows self) ->
  exists e, nth_error (content self) (Z.to_nat r) = Some e /\ entry_at self r e.
Proof.
  intros Hr. apply source_rows_In in Hr.
  destruct (nth_error (content self) (Z.to_nat r)) as [e|] eqn:Hnth.
  - exists e. split; [reflexivity|]. apply getitem_front; [lia | exact Hnth].
  - apply nth_error_None in Hnth. lia.
Qed.

Lemma entry_at_inj (self : DeviceFileSystem) (r : Z) (a b : entry) :
  entry_at self r a -> entry_at self r b -> a = b.
Proof. unfold entry_at. congruence. Qed.

Section ProxyRows.

Variable foldCase : ascii -> ascii.

Lemma proxy_to_source_perm (self : DeviceFileSystem) :
  Permutation (source_rows self) (proxy_to_source foldCase self).
Proof. apply stable_sort_perm. Qed.

Lemma proxy_to_source_top (self : DeviceFileSystem) (r : Z) :
  In r (source_rows self) -> is_parent_row self r = true ->
  exists first rest,
    proxy_to_source foldCase self = first :: rest /\ is_parent_row self first = true.
Proof.
  apply stable_sort_top.
  - intros x y Hx Hy Htop.
    destruct (source_row_entry self x Hx) as (a & Ha & Hax).
    destruct (source_row_entry self y Hy) as (b & Hb & Hby).
    rewrite (row_lessThan_run foldCase self x y a b Hax Hby).
    unfold is_parent_row in Htop. rewrite Ha in Htop.
    apply precedes_parent_left. now apply String.eqb_eq.
  - intros x y Hx Hy Hnot Htop.
    destruct (source_row_entry self x Hx) as (a & Ha & Hax).
    destruct (source_row_entry self y Hy) as (b & Hb & Hby).
    rewrite (row_lessThan_run foldCase self x y a b Hax Hby).
    unfold is_parent_row in Hnot, Htop. rewrite Ha in Hnot. rewrite Hb in Htop.
    apply precedes_parent_right;
      [now apply String.eqb_neq | now apply String.eqb_eq].
Qed.

Lemma proxy_to_source_sorted (self : DeviceFileSystem) :
  one_parent_row self -> sorted_rows foldCase self (proxy_to_source foldCase self).
Proof.
  intros Hone. split; [apply proxy_to_source_perm|].
  intros i j ri rj Hij Hi Hj.
  assert (Hmem : forall x, In x (proxy_to_source foldCase self) -> In x (source_rows self)).
  { intros x. apply Permutation_in. symmetry. apply proxy_to_source_perm. }
  destruct (source_row_entry self ri (Hmem ri (nth_error_In _ _ Hi))) as (a & Ha & Hai).
  destruct (source_row_entry self rj (Hmem rj (nth_error_In _ _ Hj))) as (b & Hb & Hbj).
  rewrite (lessThan_run foldCase self (createIndex rj 0) (createIndex ri 0) b a Hbj Hai).
  rewrite <- (row_lessThan_run foldCase self rj ri b a Hbj Hai).
  cut (row_lessThan foldCase self rj ri = false); [now intros -> |].
  apply (ascending_nth (row_lessThan foldCase self)
           (proxy_to_source foldCase self) i j ri rj); try assumption.
  apply stable_sort_ascending.
  - apply source_rows_NoDup.
  - intros x y Hx Hy Hxy.
    destruct (source_row_entry self x Hx) as (ex & Hex & Hexat).
    destruct (source_row_entry self y Hy) as (ey & Hey & Heyat).
    rewrite (row_lessThan_run foldCase self y x ey ex Heyat Hexat).
    rewrite (row_lessThan_run foldCase self x y ex ey Hexat Heyat).
    apply precedes_asym.
    destruct (string_dec (name ey) "..") as [Hny|Hny]; [|now left].
    destruct (string_dec (name ex) "..") as [Hnx|Hnx]; [|now right].
    exfalso. apply Hxy.
    pose proof (Hone _ _ _ _ Hex Hey Hnx Hny) as Heq.
    apply source_rows_In in Hx, Hy. lia.
  - intros x y z Hx Hy Hz.
    destruct (source_row_entry self x Hx) as (ex & Hex & Hexat).
    destruct (source_row_entry self y Hy) as (ey & Hey & Heyat).
    destruct (source_row_entry self z Hz) as (ez & Hez & Hezat).
    rewrite (row_lessThan_run foldCase self z x ez ex Hezat Hexat).
    rewrite (row_lessThan_run foldCase self z y ez ey Hezat Heyat).
    rewrite (row_lessThan_run foldCase self y x ey ex Heyat Hexat).
    apply precedes_split.
Qed.

(** In a sorted arrangement, a row that precedes another one and is not
    preceded by it stands above it. *)
Lemma sorted_rows_above (self : DeviceFileSystem) (rows : list Z)
      (i j : nat) (l r : Z) (a b : entry) :
  sorted_rows foldCase self rows ->
  nth_error rows i = Some l -> nth_error rows j = Some r ->
  entry_at self l a -> entry_at self r b ->
  precedes foldCase a b = true -> precedes foldCase b a = false ->
  (i < j)%nat.
Proof.
  intros [_ Hsorted] Hi Hj Ha Hb Hab Hba.
  destruct (Nat.lt_trichotomy i j) as [Hlt|[Heq|Hgt]]; [exact Hlt | |].
  - subst j. assert (l = r) by congruence. subst r.
    rewrite (entry_at_inj self l a b Ha Hb) in Hab. congruence.
  - pose proof (Hsorted j i r l Hgt Hj Hi) as H.
    rewrite (lessThan_run foldCase self (createIndex l 0) (createIndex r 0) a b Ha Hb) in H.
    congruence.
Qed.

End ProxyRows.

(** ** The ordering policy *)

(** C3: when the listing has a row named "..", the row the proxy shows at
    position 0 is named "..", whatever the names, kinds and sizes of the
    others.  In any arrangement of the source rows that is sorted by
    [lessThan], position 0 holds that very row; the proxy's own arrangement
    is such a one when no second row carries the name. *)
Theorem parent_marker_row_zero
        (foldCase : ascii -> ascii) (self : DeviceFileSystem) (r : Z) (e : entry) :
  0 <= r < Z.of_nat (length (content self)) ->
  nth_error (content self) (Z.to_nat r) = Some e ->
  name e = ".." ->
  (exists first rest e0,
     proxy_to_source foldCase self = first :: rest /\
     nth_error (content self) (Z.to_nat first) = Some e0 /\
     name e0 = "..") /\
  (forall rows, sorted_rows foldCase self rows -> nth_error rows 0 = Some r) /\
  (one_parent_row self -> nth_error (proxy_to_source foldCase self) 0 = Some r).
Proof.
  intros Hr Hnth Hname.
  assert (Hsrc : In r (source_rows self)) by now apply source_rows_In.
  assert (Hat : entry_at self r e) by (apply getitem_front; [lia | exact Hnth]).
  assert (Hany : forall rows, sorted_rows foldCase self rows -> nth_error rows 0 = Some r).
  { intros rows Hsorted. pose proof Hsorted as [Hperm Hasc].
    destruct (In_nth_error rows r (Permutation_in r Hperm Hsrc)) as [j Hj].
    destruct j as [|j]; [exact Hj|]. exfalso.
    destruct rows as [|r0 rows]; [discriminate|].
    assert (H0 : In r0 (source_rows self)).
    { apply (Permutation_in r0 (Permutation_sym Hperm)). now left. }
    destruct (source_row_entry self r0 H0) as (e0 & _ & Hat0).
    pose proof (Hasc 0%nat (S j) r0 r (Nat.lt_0_succ j) eq_refl Hj) as H.
    rewrite (lessThan_run foldCase self (createIndex r 0) (createIndex r0 0) e e0 Hat Hat0) in H.
    rewrite (precedes_parent_left foldCase e e0 Hname) in H. discriminate. }
  split; [|split].
  - destruct (proxy_to_source_top foldCase self r Hsrc) as (first & rest & Heq & Htop).
    + unfold is_parent_row. rewrite Hnth. now apply String.eqb_eq.
    + unfold is_parent_row in Htop.
      destruct (nth_error (content self) (Z.to_nat first)) as [e0|] eqn:H0;
        [|discriminate].
      exists first, rest, e0. repeat split; auto. now apply String.eqb_eq.
  - exact Hany.
  - intros Hone. apply Hany. now apply proxy_to_source_sorted.
Qed.

Lemma parent_marker_row_zero_witness :
  let self := mk_model ["alpha"]
                [mk_entry "x.txt" false 5; mk_entry "Beta" true 0;
                 mk_entry "alpha" true 0; mk_entry "a.txt" false 1; parent_entry] in
  proxy_to_source ascii_fold self = [4; 2; 1; 3; 0] /\
  displayed ascii_fold self = [".."; "alpha"; "Beta"; "a.txt"; "x.txt"] /\
  forall rows, sorted_rows ascii_fold self rows -> nth_error rows 0 = Some 4.
Proof.
  intros self. split; [reflexivity|]. split; [reflexivity|].
  apply (parent_marker_row_zero ascii_fold self 4 parent_entry).
  - simpl. lia.
  - reflexivity.
  - reflexivity.
Defined.

(** C4: for two rows whose entries are not named "..": when one is a
    directory and the other is not, [lessThan] puts the directory before the
    other whatever the names, and not the other way round; when both are of
    the same kind, [lessThan] is the case-insensitive comparison of the
    names.  In every arrangement sorted by [lessThan] the row that comes
    first by these rules stands above the other. *)
Theorem directories_before_files_then_names
        (foldCase : ascii -> ascii) (self : DeviceFileSystem)
        (l r : QModelIndex) (a b : entry) :
  entry_at self (row l) a ->
  entry_at self (row r) b ->
  name a <> ".." ->
  name b <> ".." ->
  (is_dir a = true -> is_dir b = false ->
   lessThan foldCase l r self = (Return true, self, []) /\
   lessThan foldCase r l self = (Return false, self, []) /\
   forall rows i j, sorted_rows foldCase self rows ->
     nth_error rows i = Some (row l) -> nth_error rows j = Some (row r) ->
     (i < j)%nat) /\
  (is_dir a = is_dir b ->
   lessThan foldCase l r self =
     (Return match compare_ci foldCase (name a) (name b) with
             | Lt => true
             | _ => false
             end, self, []) /\
   forall rows i j, sorted_rows foldCase self rows ->
     nth_error rows i = Some (row l) -> nth_error rows j = Some (row r) ->
     compare_ci foldCase (name a) (name b) = Lt ->
     (i < j)%nat).
Proof.
  intros Ha Hb Hna Hnb.
  pose proof (lessThan_run foldCase self l r a b Ha Hb) as Hlr.
  pose proof (lessThan_run foldCase self r l b a Hb Ha) as Hrl.
  rewrite (precedes_plain foldCase a b Hna Hnb) in Hlr.
  rewrite (precedes_plain foldCase b a Hnb Hna) in Hrl.
  split.
  - intros Hda Hdb. rewrite Hda, Hdb in Hlr, Hrl. simpl in Hlr, Hrl.
    repeat split; [exact Hlr | exact Hrl |].
    intros rows i j Hsorted Hi Hj.
    apply (sorted_rows_above foldCase self rows i j (row l) (row r) a b);
      try assumption;
      rewrite precedes_plain by assumption; now rewrite Hda, Hdb.
  - intros Hkind. split.
    + rewrite Hlr, Hkind. now destruct (is_dir b).
    + intros rows i j Hsorted Hi Hj Hlt.
      apply (sorted_rows_above foldCase self rows i j (row l) (row r) a b);
        try assumption;
        rewrite precedes_plain by assumption; rewrite Hkind.
      * rewrite Hlt. now destruct (is_dir b).
      * rewrite compare_ci_antisym, Hlt. now destruct (is_dir b).
Qed.

Lemma directories_before_files_then_names_witness :
  let self := mk_model [] [mk_entry "a.txt" false 1; mk_entry "Zoo" true 0;
                           mk_entry "B.TXT" false 7] in
  lessThan ascii_fold (createIndex 1 0) (createIndex 0 0) self = (Return true, self, []) /\
  lessThan ascii_fold (createIndex 0 0) (createIndex 1 0) self = (Return false, self, []) /\
  lessThan ascii_fold (createIndex 0 0) (createIndex 2 0) self = (Return true, self, []).
Proof.
  intros self.
  destruct (directories_before_files_then_names ascii_fold self
              (createIndex 1 0) (createIndex 0 0)
              (mk_entry "Zoo" true 0) (mk_entry "a.txt" false 1))
    as [Hkinds _]; try reflexivity; try (simpl; discriminate).
  destruct (Hkinds eq_refl eq_refl) as (H1 & H2 & _).
  destruct (directories_before_files_then_names ascii_fold self
              (createIndex 0 0) (createIndex 2 0)
              (mk_entry "a.txt" false 1) (mk_entry "B.TXT" false 7))
    as [_ Hnames]; try reflexivity; try (simpl; discriminate).
  destruct (Hnames eq_refl) as (H3 & _).
  repeat split; assumption.
Defined.

(** C5 as stated fails: a row named ".." precedes itself. *)
Lemma lessThan_parent_marker_reflexive :
  let self := mk_model ["alpha"] [mk_entry "x.txt" false 5; parent_entry] in
  entry_at self 1 parent_entry /\
  lessThan ascii_fold (createIndex 1 0) (createIndex 1 0) self = (Return true, self, []).
Proof. split; reflexivity. Qed.

(** C5, as the code has it: no row whose entry is not named ".." precedes
    itself; if a row precedes a second and the second a third, the first
    precedes the third; and when neither of two rows precedes the other,
    their names are the same up to case and both are directories or both
    are not. *)
Theorem lessThan_strict_weak_order
        (foldCase : ascii -> ascii) (self : DeviceFileSystem)
        (l m r : QModelIndex) (a b c : entry) :
  entry_at self (row l) a ->
  entry_at self (row m) b ->
  entry_at self (row r) c ->
  (name a <> ".." -> lessThan foldCase l l self = (Return false, self, [])) /\
  (lessThan foldCase l m self = (Return true, self, []) ->
   lessThan foldCase m r self = (Return true, self, []) ->
   lessThan foldCase l r self = (Return true, self, [])) /\
  (lessThan foldCase l m self = (Return false, self, []) ->
   lessThan foldCase m l self = (Return false, self, []) ->
   fold_name foldCase (name a) = fold_name foldCase (name b) /\
   is_dir a = is_dir b).
Proof.
  intros Ha Hb Hc.
  rewrite (lessThan_run foldCase self l l a a Ha Ha).
  rewrite (lessThan_run foldCase self l m a b Ha Hb).
  rewrite (lessThan_run foldCase self m r b c Hb Hc).
  rewrite (lessThan_run foldCase self l r a c Ha Hc).
  rewrite (lessThan_run foldCase self m l b a Hb Ha).
  split; [|split].
  - intros Hna. now rewrite precedes_irrefl.
  - intros [= Hab] [= Hbc]. now rewrite (precedes_trans foldCase a b c Hab Hbc).
  - intros [= Hab] [= Hba].
    destruct (precedes_neither foldCase a b Hab Hba) as (_ & _ & Hkind & Hfold).
    now split.
Qed.

Lemma lessThan_strict_weak_order_witness :
  let self := mk_model [] [mk_entry "Zoo" true 0; mk_entry "a.txt" false 1;
                           mk_entry "B.TXT" false 7] in
  lessThan ascii_fold (createIndex 0 0) (createIndex 0 0) self = (Return false, self, []) /\
  lessThan ascii_fold (createIndex 0 0) (createIndex 2 0) self = (Return true, self, []).
Proof.
  intros self.
  destruct (lessThan_strict_weak_order ascii_fold self
              (createIndex 0 0) (createIndex 1 0) (createIndex 2 0)
              (mk_entry "Zoo" true 0) (mk_entry "a.txt" false 1) (mk_entry "B.TXT" false 7))
    as (Hirr & Htrans & _); try reflexivity.
  split.
  - apply Hirr. simpl. discriminate.
  - apply Htrans; reflexivity.
Defined.

(** ** Scenarios *)

(** At the root the listing is shown as received, without "..". *)
Example root_listing_displayed :
  let self := state_after (on_ls [mk_entry "alpha" true 0; mk_entry "b.txt" false 120])
                          (mk_model [] []) in
  displayed ascii_fold self = ["alpha"; "b.txt"].
Proof. reflexivity. Qed.

(** After entering "alpha" the proxy shows ".." above the received file. *)
Example subdirectory_listing_displayed :
  let root := state_after (on_ls [mk_entry "alpha" true 0; mk_entry "b.txt" false 120])
                          (mk_model [] []) in
  let self := state_after (on_ls [mk_entry "x.txt" false 5])
                          (state_after (enter_directory (createIndex 0 0)) root) in
  path self = ["alpha"] /\ displayed ascii_fold self = [".."; "x.txt"].
Proof. split; reflexivity. Qed.

(** A delete request sends the delete command only; the listing is asked
    for again when the completion arrives. *)
Example delete_request_signals :
  let self := mk_model [] [mk_entry "alpha" true 0; mk_entry "b.txt" false 120] in
  emitted (issue (delete_request "b.txt")) self = [delete "/b.txt"] /\
  emitted (deliver (on_delete_file "/b.txt")) self = [list_files ""].
Proof. split; reflexivity. Qed.

(** A rename request asks for the listing once itself, right after the
    rename command, and once more when the completion arrives. *)
Example rename_request_signals :
  let self := mk_model ["alpha"] [mk_entry "x.txt" false 5; parent_entry] in
  list_requests (emitted (issue (rename_request (createIndex 0 0) "y.txt" EditRole)) self)
    = ["alpha"] /\
  list_requests (emitted (deliver (on_move_fail "alpha/x.txt" "alpha/y.txt")) self)
    = ["alpha"].
Proof. split; reflexivity. Qed.

(** With two rows named ".." (the device lists one itself) the proxy still
    shows a ".." on top. *)
Example two_parent_rows_displayed :
  let self := mk_model ["alpha"] [mk_entry ".." false 5; mk_entry "a" true 0; parent_entry] in
  proxy_to_source ascii_fold self = [2; 0; 1] /\
  displayed ascii_fold self = [".."; ".."; "a"].
Proof. split; reflexivity. Qed.

(** * Further properties of the model *)

(** ** Methods that only read *)

Lemma read_only_ret {A : Type} (a : A) : read_only (ret a).
Proof. intros self. split; reflexivity. Qed.

Lemma read_only_lift {A : Type} (o : outcome A) : read_only (lift o).
Proof. intros self. split; reflexivity. Qed.

Lemma read_only_get_path : read_only get_path.
Proof. intros self. split; reflexivity. Qed.

Lemma read_only_get_content : read_only get_content.
Proof. intros self. split; reflexivity. Qed.

Lemma read_only_bind {A B : Type} (m : M A) (f : A -> M B) :
  read_only m -> (forall a, read_only (f a)) -> read_only (bind m f).
Proof.
  intros Hm Hf self. destruct (Hm self) as [Hs Ho].
  unfold state_after, emitted, bind in *.
  destruct (m self) as [[[a|x] s1] out1]; simpl in *; subst.
  - destruct (Hf a self) as [Hs' Ho']. unfold state_after, emitted in *.
    destruct (f a self) as [[o s2] out2]. simpl in *. now subst.
  - split; reflexivity.
Qed.

Lemma read_only_if {A : Type} (b : bool) (m1 m2 : M A) :
  read_only m1 -> read_only m2 -> read_only (if b then m1 else m2).
Proof. now destruct b. Qed.

Lemma read_only_content_at (ix : QModelIndex) : read_only (content_at ix).
Proof.
  apply read_only_bind; [apply read_only_get_content|].
  intros c. apply read_only_lift.
Qed.

Lemma read_only_rowCount (parent : QModelIndex) : read_only (rowCount parent).
Proof. intros self. split; reflexivity. Qed.

Lemma read_only_index (r : Z) : read_only (index r).
Proof.
  apply read_only_bind; [apply read_only_rowCount|]. intros rows.
  apply read_only_bind; [apply read_only_ret|]. intros cols.
  apply read_only_if; apply read_only_ret.
Qed.

Lemma read_only_is_directory (ix : QModelIndex) : read_only (is_directory ix).
Proof.
  apply read_only_bind; [apply read_only_content_at|].
  intros e. apply read_only_ret.
Qed.

Lemma read_only_data (ix : QModelIndex) (role : Z) : read_only (data ix role).
Proof.
  apply read_only_bind; [apply read_only_content_at|]. intros e.
  repeat apply read_only_if; apply read_only_ret.
Qed.

Lemma read_only_flags (default_flags : QModelIndex -> Z) (ix : QModelIndex) :
  read_only (flags default_flags ix).
Proof.
  apply read_only_bind; [apply read_only_content_at|]. intros e.
  apply read_only_if; apply read_only_ret.
Qed.

Lemma read_only_super_lessThan (foldCase : ascii -> ascii) (l r : QModelIndex) :
  read_only (super_lessThan foldCase l r).
Proof.
  apply read_only_bind; [apply read_only_data|]. intros a.
  apply read_only_bind; [apply read_only_data|]. intros b.
  apply read_only_ret.
Qed.

Lemma read_only_lessThan (foldCase : ascii -> ascii) (l r : QModelIndex) :
  read_only (lessThan foldCase l r).
Proof.
  apply read_only_bind; [apply read_only_data|]. intros a.
  apply read_only_bind; [apply read_only_data|]. intros b.
  apply read_only_if; [apply read_only_ret|].
  apply read_only_if; [apply read_only_ret|].
  apply read_only_bind; [apply read_only_is_directory|]. intros da.
  apply read_only_bind; [apply read_only_is_directory|]. intros db.
  apply read_only_if; [apply read_only_ret|].
  apply read_only_if; [apply read_only_ret|].
  apply read_only_super_lessThan.
Qed.

Lemma read_only_discard {A : Type} (m : M A) : read_only m -> read_only (discard m).
Proof.
  intros Hm self. destruct (Hm self) as [Hs Ho].
  unfold state_after, emitted, discard in *.
  destruct (m self) as [[[a|x] s1] out1]; simpl in *; now subst.
Qed.

(** X1: the query methods of the model and the proxy's comparison never
    change the path or the listing and never send a signal, on any index
    and whether they return or raise. *)
Theorem queries_read_only
        (default_flags : QModelIndex -> Z) (foldCase : ascii -> ascii)
        (ix ix' : QModelIndex) (role r : Z) :
  read_only (rowCount ix) /\
  read_only (columnCount ix) /\
  read_only (index r) /\
  read_only get_root_index /\
  read_only (is_directory ix) /\
  read_only (data ix role) /\
  read_only (flags default_flags ix) /\
  read_only (lessThan foldCase ix ix').
Proof.
  repeat split;
    try apply read_only_index; try apply read_only_is_directory;
    try apply read_only_data; try apply read_only_flags;
    try apply read_only_lessThan; reflexivity.
Qed.

(** ** Rows outside the listing *)

Lemma getitem_outside {A : Type} (l : list A) (i : Z) :
  i < - Z.of_nat (length l) \/ Z.of_nat (length l) <= i ->
  getitem l i = Raised IndexError.
Proof.
  intros [Hi|Hi]; [|now apply getitem_beyond].
  unfold getitem.
  destruct (i <? 0) eqn:Hneg; [|apply Z.ltb_ge in Hneg; lia].
  replace (i + Z.of_nat (length l) <? 0) with true; [reflexivity|].
  symmetry. apply Z.ltb_lt. lia.
Qed.

Lemma getitem_wrap {A : Type} (l : list A) (i : Z) :
  - Z.of_nat (length l) <= i <= -1 ->
  getitem l i = getitem l (Z.of_nat (length l) + i).
Proof.
  intros Hi. destruct (getitem_back l i Hi) as (a & Hnth & Hget).
  rewrite Hget. symmetry. apply getitem_front; [lia | exact Hnth].
Qed.

Lemma raising_run {B : Type} (f : entry -> M B) (self : DeviceFileSystem)
      (ix : QModelIndex) :
  out_of_range self (row ix) ->
  bind (content_at ix) f self = (Raised IndexError, self, []).
Proof.
  intros H. apply bind_raise, content_at_Raised. now apply getitem_outside.
Qed.

(** X2: on a row outside the listing (at or beyond its length, or below
    minus its length) every method that takes an index raises [IndexError]
    before doing anything: the state is as before and no signal, in
    particular no rename command and no list request, has been sent. *)
Theorem outside_rows_raise
        (default_flags : QModelIndex -> Z) (self : DeviceFileSystem)
        (ix : QModelIndex) (value : string) (role : Z) :
  out_of_range self (row ix) ->
  is_directory ix self = (Raised IndexError, self, []) /\
  enter_directory ix self = (Raised IndexError, self, []) /\
  data ix role self = (Raised IndexError, self, []) /\
  flags default_flags ix self = (Raised IndexError, self, []) /\
  setData ix value role self = (Raised IndexError, self, []).
Proof.
  intros H. repeat split; now apply raising_run.
Qed.

Lemma outside_rows_raise_witness :
  let self := mk_model ["alpha"] [mk_entry "x.txt" false 5; parent_entry] in
  enter_directory (createIndex (-3) 0) self = (Raised IndexError, self, []) /\
  setData (createIndex 2 0) "y" EditRole self = (Raised IndexError, self, []).
Proof.
  intros self. split.
  - apply (outside_rows_raise (fun _ => 0) self (createIndex (-3) 0) "y" EditRole).
    left. simpl. lia.
  - apply (outside_rows_raise (fun _ => 0) self (createIndex 2 0) "y" EditRole).
    right. simpl. lia.
Defined.

(** X3: a failed listing leaves the path alone, empties the listing and
    announces it with one [dataChanged]; from then on the model has no rows
    and every index, the root index included, raises in every method that
    takes one. *)
Theorem list_failure_empties
        (default_flags : QModelIndex -> Z) (self : DeviceFileSystem)
        (ix : QModelIndex) (value : string) (role : Z) :
  on_ls_fail self =
    (Return tt, mk_model (path self) [],
     [dataChanged (createIndex 0 0) (createIndex 0 0)]) /\
  result_of (rowCount ix) (state_after on_ls_fail self) = Return 0 /\
  result_of (is_directory ix) (state_after on_ls_fail self) = Raised IndexError /\
  result_of (enter_directory ix) (state_after on_ls_fail self) = Raised IndexError /\
  emitted (enter_directory ix) (state_after on_ls_fail self) = [] /\
  result_of (data ix role) (state_after on_ls_fail self) = Raised IndexError /\
  result_of (flags default_flags ix) (state_after on_ls_fail self) = Raised IndexError /\
  result_of (setData ix value role) (state_after on_ls_fail self) = Raised IndexError /\
  emitted (setData ix value role) (state_after on_ls_fail self) = [].
Proof.
  assert (Hout : out_of_range (state_after on_ls_fail self) (row ix)).
  { unfold out_of_range. simpl. lia. }
  pose proof (raising_run (fun e => ret (is_dir e)) _ ix Hout) as H1.
  assert (H2 : enter_directory ix (state_after on_ls_fail self) =
               (Raised IndexError, state_after on_ls_fail self, []))
    by now apply raising_run.
  assert (H3 : data ix role (state_after on_ls_fail self) =
               (Raised IndexError, state_after on_ls_fail self, []))
    by now apply raising_run.
  assert (H4 : flags default_flags ix (state_after on_ls_fail self) =
               (Raised IndexError, state_after on_ls_fail self, []))
    by now apply raising_run.
  assert (H5 : setData ix value role (state_after on_ls_fail self) =
               (Raised IndexError, state_after on_ls_fail self, []))
    by now apply raising_run.
  fold (is_directory ix) in H1.
  unfold result_of, emitted. rewrite H1, H2, H3, H4, H5.
  repeat split; reflexivity.
Qed.

(** ** What each call does to the state and which commands it sends *)

Lemma discard_state {A : Type} (m : M A) (self : DeviceFileSystem) :
  state_after (discard m) self = state_after m self.
Proof.
  unfold state_after, discard. now destruct (m self) as [[[a|x] s1] out1].
Qed.

Lemma discard_emitted {A : Type} (m : M A) (self : DeviceFileSystem) :
  emitted (discard m) self = emitted m self.
Proof.
  unfold emitted, discard. now destruct (m self) as [[[a|x] s1] out1].
Qed.

Lemma enter_directory_cases (self : DeviceFileSystem) (ix : QModelIndex) :
  enter_directory ix self = (Raised IndexError, self, []) \/
  exists e,
    entry_at self (row ix) e /\
    enter_directory ix self =
      (Return invalid_index,
       mk_model (entered (path self) e) (content self),
       [list_files (join (entered (path self) e))]).
Proof.
  unfold entry_at.
  destruct (getitem (content self) (row ix)) as [e|[]] eqn:Hget.
  - destruct (string_dec (name e) "..") as [Hname|Hname].
    + destruct (path self) as [|seg p] eqn:Hpath.
      * left. now apply (enter_directory_pop_empty self ix e).
      * right. exists e. split; [reflexivity|].
        rewrite <- Hpath. apply enter_directory_run; [exact Hget|].
        intros _. congruence.
    + right. exists e. split; [reflexivity|].
      apply enter_directory_run; [exact Hget | intros H; contradiction].
  - left. unfold enter_directory.
    now apply bind_raise, content_at_Raised.
Qed.

Lemma setData_cases (self : DeviceFileSystem) (ix : QModelIndex)
      (value : string) (role : Z) :
  emitted (setData ix value role) self = [] \/
  exists e,
    entry_at self (row ix) e /\
    (role = DisplayRole \/ role = EditRole) /\
    setData ix value role self =
      (Return true, self,
       [printed ["Renaming on device: "; (join (path self) ++ "/") ++ name e;
                 "to"; (join (path self) ++ "/") ++ value];
        rename ((join (path self) ++ "/") ++ name e)
               ((join (path self) ++ "/") ++ value);
        list_files (join (path self))]).
Proof.
  unfold entry_at.
  destruct (getitem (content self) (row ix)) as [e|[]] eqn:Hget.
  - pose proof (setData_run self ix e value role Hget) as Hrun.
    destruct ((role =? DisplayRole) || (role =? EditRole)) eqn:Hrole.
    + right. exists e. split; [reflexivity|]. split; [|exact Hrun].
      apply orb_true_iff in Hrole.
      destruct Hrole as [H|H]; apply Z.eqb_eq in H; auto.
    + left. unfold emitted. now rewrite Hrun.
  - left. unfold emitted, setData.
    now rewrite (bind_raise _ _ _ _ _ _ (content_at_Raised _ _ _ Hget)).
Qed.

Ltac query_call :=
  rewrite ?discard_state, ?discard_emitted;
  first [ apply read_only_rowCount | apply read_only_ret
        | apply read_only_is_directory | apply read_only_data
        | apply read_only_index | apply read_only_flags ].

Lemma run_keeps_fields
      (default_flags : QModelIndex -> Z) (c : call) (self : DeviceFileSystem) :
  match c with
  | call_enter_directory _ => True
  | _ => path (state_after (run default_flags c) self) = path self
  end /\
  match c with
  | call_on_ls _ | call_on_ls_fail => True
  | _ => content (state_after (run default_flags c) self) = content self
  end.
Proof.
  destruct c; simpl; split; try exact I; try reflexivity;
    try (rewrite discard_state);
    try (f_equal; query_call);
    try (now rewrite setData_state).
  - unfold state_after. now rewrite on_ls_run.
  - destruct (enter_directory_cases self ix) as [H|(e & _ & H)];
      unfold state_after; now rewrite H.
Qed.

(** X4: among all the entry points of the model, only [enter_directory]
    ever changes the path, and only [on_ls] and [on_ls_fail] ever change the
    listing; deleting, renaming, their completions and all queries leave
    both as they are. *)
Theorem fields_written_by
        (default_flags : QModelIndex -> Z) (c : call) (self : DeviceFileSystem) :
  match c with
  | call_enter_directory _ => True
  | _ => path (state_after (run default_flags c) self) = path self
  end /\
  match c with
  | call_on_ls _ | call_on_ls_fail => True
  | _ => content (state_after (run default_flags c) self) = content self
  end.
Proof. apply run_keeps_fields. Qed.

(** X5: a delete command is sent only by [do_delete], for the current path
    followed by "/" and the given name, and a rename command only by
    [setData] called with the display or the edit role on a row that names
    an entry.  Navigation, queries and the completions of earlier commands
    never send either. *)
Theorem commands_only_on_request
        (default_flags : QModelIndex -> Z) (c : call) (self : DeviceFileSystem)
        (sg : signal) :
  In sg (emitted (run default_flags c) self) ->
  match sg with
  | delete p =>
      exists file, c = call_do_delete file /\ p = (join (path self) ++ "/") ++ file
  | rename old_path new_path =>
      exists ix value role e,
        c = call_setData ix value role /\
        entry_at self (row ix) e /\
        (role = DisplayRole \/ role = EditRole) /\
        old_path = (join (path self) ++ "/") ++ name e /\
        new_path = (join (path self) ++ "/") ++ value
  | _ => True
  end.
Proof.
  destruct c; cbn [run];
    try (rewrite discard_emitted;
         match goal with
         | |- In _ (emitted ?m _) -> _ =>
             assert (Hq : read_only m) by query_call;
             rewrite (proj2 (Hq self)); intros []
         end);
    try (intros [<-|[]]; exact I).
  - unfold emitted. rewrite on_ls_run. simpl. intros [<-|[]]. exact I.
  - intros [<-|[]]. now exists file.
  - rewrite discard_emitted.
    destruct (enter_directory_cases self ix) as [H|(e & _ & H)];
      unfold emitted; rewrite H; simpl; [intros [] | intros [<-|[]]; exact I].
  - rewrite discard_emitted.
    destruct (setData_cases self ix value role) as [H|(e & He & Hrole & H)].
    + rewrite H. intros [].
    + unfold emitted. rewrite H. simpl.
      intros [<-|[<-|[<-|[]]]]; try exact I.
      exists ix, value, role, e. auto.
Qed.

Lemma commands_only_on_request_witness :
  let self := mk_model ["alpha"] [mk_entry "x.txt" false 5; parent_entry] in
  exists file,
    call_do_delete "x.txt" = call_do_delete file /\
    "alpha/x.txt" = (join (path self) ++ "/") ++ file.
Proof.
  intros self.
  apply (commands_only_on_request (fun _ => 0) (call_do_delete "x.txt") self
           (delete "alpha/x.txt")).
  simpl. now left.
Defined.

(** X6: no call sends more than one list request, and the one it sends
    names the path the model holds when the call is over. *)
Theorem list_request_names_path
        (default_flags : QModelIndex -> Z) (c : call) (self : DeviceFileSystem) :
  list_requests (emitted (run default_flags c) self) = [] \/
  list_requests (emitted (run default_flags c) self) =
    [join (path (state_after (run default_flags c) self))].
Proof.
  destruct c; cbn [run];
    try (left; rewrite discard_emitted;
         match goal with
         | |- list_requests (emitted ?m _) = _ =>
             assert (Hq : read_only m) by query_call;
             now rewrite (proj2 (Hq self))
         end);
    try (right; reflexivity);
    try (left; reflexivity).
  - left. unfold emitted. now rewrite on_ls_run.
  - rewrite discard_emitted, discard_state.
    destruct (enter_directory_cases self ix) as [H|(e & _ & H)];
      unfold emitted, state_after; rewrite H; simpl; auto.
  - rewrite discard_emitted, discard_state, setData_state.
    destruct (setData_cases self ix value role) as [H|(e & _ & _ & H)].
    + left. now rewrite H.
    + right. unfold emitted. now rewrite H.
Qed.

(** ** The path over a whole history *)

Lemma removelast_Forall {A : Type} (P : A -> Prop) (l : list A) :
  Forall P l -> Forall P (removelast l).
Proof.
  induction 1 as [|x l Hx Hl IH]; [constructor|].
  destruct l as [|y l]; [constructor|].
  change (removelast (x :: y :: l)) with (x :: removelast (y :: l)).
  now constructor.
Qed.

Lemma entered_segments (p : list string) (e : entry) :
  Forall (fun seg => seg <> "..") p ->
  Forall (fun seg => seg <> "..") (entered p e).
Proof.
  intros Hp. unfold entered.
  destruct (name e =? "..")%string eqn:Hname.
  - now apply removelast_Forall.
  - destruct (is_dir e); [|exact Hp].
    apply Forall_app. split; [exact Hp|].
    constructor; [|constructor]. now apply String.eqb_neq.
Qed.

Lemma run_segments (default_flags : QModelIndex -> Z) (c : call)
      (self : DeviceFileSystem) :
  Forall (fun seg => seg <> "..") (path self) ->
  Forall (fun seg => seg <> "..") (path (state_after (run default_flags c) self)).
Proof.
  intros Hp.
  destruct c;
    try (match goal with
         | |- context [run _ ?c] =>
             pose proof (proj1 (run_keeps_fields default_flags c self)) as Hsame;
             cbn beta iota in Hsame; now rewrite Hsame
         end).
  cbn [run]. rewrite discard_state.
  destruct (enter_directory_cases self ix) as [H|(e & _ & H)];
    unfold state_after; rewrite H; simpl; [exact Hp|].
  now apply entered_segments.
Qed.

(** X7: whatever calls the model has received since it was constructed,
    and whatever listings the device has sent, no segment of its path is
    "..": going up removes a segment, it never adds one. *)
Theorem path_has_no_parent_marker
        (default_flags : QModelIndex -> Z) (cs : list call) :
  Forall (fun seg => seg <> "..")
         (path (fst (run_calls default_flags cs fresh_model))).
Proof.
  assert (Hgen : forall self,
             Forall (fun seg => seg <> "..") (path self) ->
             Forall (fun seg => seg <> "..")
                    (path (fst (run_calls default_flags cs self)))).
  { induction cs as [|c rest IH]; intros self Hp; [exact Hp|].
    simpl. pose proof (run_segments default_flags c self Hp) as Hstep.
    unfold state_after in Hstep.
    destruct (run default_flags c self) as [[o s1] out1]. simpl in Hstep.
    specialize (IH s1 Hstep).
    now destruct (run_calls default_flags rest s1) as [s2 out2]. }
  apply Hgen. constructor.
Qed.

(** ** Editable rows *)

(** X8: [flags] answers with the default flags, unchanged, for a row named
    ".." or "."; for every other row it answers with the default flags plus
    the [ItemIsEditable] bit and no other difference. *)
Theorem flags_editable
        (default_flags : QModelIndex -> Z) (self : DeviceFileSystem)
        (ix : QModelIndex) (e : entry) :
  entry_at self (row ix) e ->
  exists f,
    flags default_flags ix self = (Return f, self, []) /\
    (if ((name e =? "..") || (name e =? "."))%string
     then f = default_flags ix
     else Z.land f ItemIsEditable = ItemIsEditable /\
          forall k, k <> 1 -> Z.testbit f k = Z.testbit (default_flags ix) k).
Proof.
  intros He. unfold flags.
  rewrite (bind_run _ _ _ _ _ _ (content_at_Return _ _ _ He)).
  destruct ((name e =? "..") || (name e =? "."))%string.
  - exists (default_flags ix). split; reflexivity.
  - exists (Z.lor (default_flags ix) ItemIsEditable). split; [reflexivity|].
    change ItemIsEditable with (2 ^ 1). split.
    + apply Z.bits_inj'. intros k Hk.
      rewrite Z.land_spec, Z.lor_spec, (Z.pow2_bits_eqb 1 k) by lia.
      destruct (1 =? k); [now rewrite orb_true_r | apply andb_false_r].
    + intros k Hk.
      rewrite Z.lor_spec, (Z.pow2_bits_eqb 1 k) by lia.
      replace (1 =? k) with false by (symmetry; apply Z.eqb_neq; lia).
      apply orb_false_r.
Qed.

Lemma flags_editable_witness :
  let self := mk_model ["alpha"] [mk_entry "x.txt" false 5; parent_entry] in
  exists f,
    flags (fun _ => 161) (createIndex 0 0) self = (Return f, self, []) /\
    Z.land f ItemIsEditable = ItemIsEditable /\
    forall k, k <> 1 -> Z.testbit f k = Z.testbit 161 k.
Proof.
  intros self.
  apply (flags_editable (fun _ => 161) self (createIndex 0 0) (mk_entry "x.txt" false 5)).
  reflexivity.
Defined.

(** ** Rows counted from the end *)

(** X9: on a row [r] with [-n <= r <= -1] the methods that take an index
    do exactly what they do on row [n + r]: the same result, the same state
    and the same signals.  A rename or a directory change asked for on
    such a row is carried out on the entry counted from the end. *)
Theorem negative_rows_wrap
        (self : DeviceFileSystem) (ix ix' : QModelIndex) (value : string) (role : Z) :
  - Z.of_nat (length (content self)) <= row ix <= -1 ->
  row ix' = Z.of_nat (length (content self)) + row ix ->
  enter_directory ix self = enter_directory ix' self /\
  data ix role self = data ix' role self /\
  setData ix value role self = setData ix' value role self /\
  is_directory ix self = is_directory ix' self.
Proof.
  intros Hr Hrow.
  assert (Hat : content_at ix self = content_at ix' self).
  { rewrite !content_at_run, Hrow. now rewrite (getitem_wrap _ _ Hr). }
  unfold enter_directory, data, setData, is_directory, bind.
  rewrite Hat. repeat split; reflexivity.
Qed.

Lemma negative_rows_wrap_witness :
  let self := mk_model ["alpha"] [mk_entry "x.txt" false 5; mk_entry "sub" true 0] in
  enter_directory (createIndex (-1) (-1)) self =
    (Return invalid_index, mk_model ["alpha"; "sub"] (content self),
     [list_files "alpha/sub"]).
Proof.
  intros self.
  destruct (negative_rows_wrap self (createIndex (-1) (-1)) (createIndex 1 0)
              "" DisplayRole) as [H _].
  - simpl. lia.
  - reflexivity.
  - rewrite H. reflexivity.
Defined.

(** X10: below the root, right after a listing has arrived, entering the
    root index handed out by [get_root_index] goes up one directory: its
    row -1 names the ".." entry that [on_ls] has just appended. *)
Theorem root_index_goes_up (self : DeviceFileSystem) (files : list entry) :
  path self <> [] ->
  let listed := state_after (on_ls files) self in
  get_root_index listed = (Return invalid_index, listed, []) /\
  enter_directory invalid_index listed =
    (Return invalid_index,
     mk_model (removelast (path self)) (files ++ [parent_entry]),
     [list_files (join (removelast (path self)))]).
Proof.
  intros Hpath listed.
  assert (Hlisted : listed = mk_model (path self) (files ++ [parent_entry])).
  { unfold listed, state_after. rewrite on_ls_run. simpl.
    destruct (path self); [contradiction | reflexivity]. }
  split; [apply index_sentinel|]. rewrite Hlisted.
  assert (Hget : getitem (files ++ [parent_entry]) (-1) = Return parent_entry).
  { rewrite getitem_wrap by (rewrite length_app; simpl; lia).
    rewrite length_app. simpl length.
    apply getitem_front; [lia|].
    replace (Z.to_nat (Z.of_nat (length files + 1) + -1)) with (length files) by lia.
    rewrite nth_error_app2 by lia. now rewrite Nat.sub_diag. }
  rewrite (enter_directory_run
             (mk_model (path self) (files ++ [parent_entry]))
             invalid_index parent_entry Hget);
    [reflexivity | intros _; exact Hpath].
Qed.

Lemma root_index_goes_up_witness :
  let self := mk_model ["lib"; "foo"] [] in
  enter_directory invalid_index (state_after (on_ls [mk_entry "x.txt" false 5]) self) =
    (Return invalid_index,
     mk_model ["lib"] [mk_entry "x.txt" false 5; parent_entry],
     [list_files "lib"]).
Proof.
  intros self.
  apply (root_index_goes_up self [mk_entry "x.txt" false 5]).
  simpl. discriminate.
Defined.

(** ** A listing that has just arrived *)

Lemma getitem_inside {A : Type} (l : list A) (i : Z) :
  - Z.of_nat (length l) <= i < Z.of_nat (length l) ->
  exists a, getitem l i = Return a.
Proof.
  intros Hi. destruct (Z.neg_nonneg_cases i) as [Hneg|Hpos].
  - destruct (getitem_back l i) as (a & _ & Hget); [lia | eauto].
  - destruct (nth_error l (Z.to_nat i)) as [a|] eqn:Hnth.
    + exists a. now apply getitem_front.
    + apply nth_error_None in Hnth. lia.
Qed.

(** X11: when the device does not list an entry named ".." itself, then
    right after a listing has arrived [enter_directory] cannot raise on any
    row of that listing, counted from the front or from the end: it returns
    the root index and sends exactly one list request. *)
Theorem fresh_listing_enter_returns
        (self : DeviceFileSystem) (files : list entry) (ix : QModelIndex) :
  Forall (fun e => name e <> "..") files ->
  let listed := state_after (on_ls files) self in
  - Z.of_nat (length (content listed)) <= row ix < Z.of_nat (length (content listed)) ->
  result_of (enter_directory ix) listed = Return invalid_index /\
  list_requests (emitted (enter_directory ix) listed) =
    [join (path (state_after (enter_directory ix) listed))].
Proof.
  intros Hfiles listed Hrow.
  destruct (getitem_inside _ _ Hrow) as [e Hget].
  assert (Hsafe : name e = ".." -> path listed <> []).
  { intros Hname Hpath. apply getitem_In in Hget.
    unfold listed, state_after in Hget, Hpath. rewrite on_ls_run in Hget, Hpath.
    simpl in Hget, Hpath. rewrite Hpath, app_nil_r in Hget.
    rewrite Forall_forall in Hfiles. now apply (Hfiles e Hget). }
  unfold result_of, emitted, state_after at 1.
  rewrite (enter_directory_run listed ix e Hget Hsafe). split; reflexivity.
Qed.

Lemma fresh_listing_enter_returns_witness :
  let listed := state_after (on_ls [mk_entry "alpha" true 0; mk_entry "b.txt" false 120])
                            (mk_model [] []) in
  result_of (enter_directory (createIndex (-2) 0)) listed = Return invalid_index /\
  list_requests (emitted (enter_directory (createIndex (-2) 0)) listed) = ["alpha"].
Proof.
  intros listed.
  apply (fresh_listing_enter_returns (mk_model [] [])
           [mk_entry "alpha" true 0; mk_entry "b.txt" false 120] (createIndex (-2) 0)).
  - repeat constructor; simpl; discriminate.
  - simpl. lia.
Defined.

(** ** The paths in the commands *)

Lemma string_app_assoc (a b c : string) : (a ++ b) ++ c = a ++ (b ++ c).
Proof. induction a as [|x a IH]; simpl; [reflexivity | now rewrite IH]. Qed.

Lemma join_snoc (seg : string) (p : list string) (x : string) :
  join ((seg :: p) ++ [x]) = (join (seg :: p) ++ "/") ++ x.
Proof.
  unfold join. revert seg. induction p as [|seg' p IH]; intros seg.
  - simpl. now rewrite string_app_assoc.
  - change (String.concat "/" ((seg :: seg' :: p) ++ [x]))
      with (seg ++ "/" ++ String.concat "/" ((seg' :: p) ++ [x])).
    rewrite IH.
    change (String.concat "/" (seg :: seg' :: p))
      with (seg ++ "/" ++ String.concat "/" (seg' :: p)).
    now rewrite !string_app_assoc.
Qed.

(** X12: below the root, the path in a delete command and the two paths
    in a rename command are the current path with the name as one more
    segment, joined with "/", the form a list request for that path would
    have.  At the root they are the name with a "/" in front. *)
Theorem command_targets
        (self : DeviceFileSystem) (file : string)
        (ix : QModelIndex) (e : entry) (value : string) :
  entry_at self (row ix) e ->
  let target := fun n => match path self with
                         | [] => "/" ++ n
                         | _ :: _ => join (path self ++ [n])
                         end in
  do_delete file self = (Return tt, self, [delete (target file)]) /\
  setData ix value EditRole self =
    (Return true, self,
     [printed ["Renaming on device: "; target (name e); "to"; target value];
      rename (target (name e)) (target value);
      list_files (join (path self))]).
Proof.
  intros He target.
  assert (Htarget : forall n, target n = (join (path self) ++ "/") ++ n).
  { intros n. unfold target. destruct (path self) as [|seg p]; [reflexivity|].
    apply join_snoc. }
  rewrite !Htarget. split; [reflexivity|].
  now rewrite (setData_run self ix e value EditRole He).
Qed.

Lemma command_targets_witness :
  let self := mk_model ["lib"; "foo"] [mk_entry "x.txt" false 5; parent_entry] in
  do_delete "x.txt" self = (Return tt, self, [delete "lib/foo/x.txt"]) /\
  setData (createIndex 0 0) "y.txt" EditRole self =
    (Return true, self,
     [printed ["Renaming on device: "; "lib/foo/x.txt"; "to"; "lib/foo/y.txt"];
      rename "lib/foo/x.txt" "lib/foo/y.txt";
      list_files "lib/foo"]).
Proof.
  intros self.
  apply (command_targets self "x.txt" (createIndex 0 0) (mk_entry "x.txt" false 5) "y.txt").
  reflexivity.
Defined.

(** ** More on the comparison *)

Lemma data_display_cases (self : DeviceFileSystem) (ix : QModelIndex) :
  data ix DisplayRole self = (Raised IndexError, self, []) \/
  exists e, entry_at self (row ix) e /\
            data ix DisplayRole self = (Return (QString (name e)), self, []).
Proof.
  unfold entry_at.
  destruct (getitem (content self) (row ix)) as [e|[]] eqn:Hget.
  - right. exists e. split; [reflexivity | now apply data_display_run].
  - left. unfold data. now apply bind_raise, content_at_Raised.
Qed.

(** X13: [lessThan] reads both names before it compares anything, so it
    raises [IndexError] as soon as one of the two rows is outside the
    listing, also when the other row is the one named "..". *)
Theorem lessThan_outside_raises
        (foldCase : ascii -> ascii) (self : DeviceFileSystem) (l r : QModelIndex) :
  out_of_range self (row l) \/ out_of_range self (row r) ->
  lessThan foldCase l r self = (Raised IndexError, self, []).
Proof.
  intros Hout. unfold lessThan.
  destruct (data_display_cases self l) as [Hl|(a & Ha & Hl)].
  - now apply bind_raise.
  - rewrite (bind_run _ _ _ _ _ _ Hl).
    destruct Hout as [Hout|Hout].
    + unfold entry_at in Ha. rewrite (getitem_outside _ _ Hout) in Ha. discriminate.
    + assert (Hr : data r DisplayRole self = (Raised IndexError, self, []))
        by now apply raising_run.
      now rewrite (bind_raise _ _ _ _ _ _ Hr).
Qed.

Lemma lessThan_outside_raises_witness :
  let self := mk_model ["alpha"] [mk_entry "x.txt" false 5; parent_entry] in
  lessThan ascii_fold (createIndex 1 0) (createIndex 2 0) self =
    (Raised IndexError, self, []).
Proof.
  intros self.
  apply (lessThan_outside_raises ascii_fold self (createIndex 1 0) (createIndex 2 0)).
  right. right. simpl. lia.
Defined.

Lemma precedes_same (foldCase : ascii -> ascii) (a b : entry) :
  name a <> ".." -> name b <> ".." -> is_dir a = is_dir b ->
  fold_name foldCase (name a) = fold_name foldCase (name b) ->
  precedes foldCase a b = false.
Proof.
  intros Ha Hb Hkind Hfold. rewrite precedes_plain by assumption.
  apply compare_ci_eq_iff in Hfold. rewrite Hfold, Hkind.
  now destruct (is_dir b).
Qed.

(** X14: of two rows that are not both named "..", at most one precedes
    the other; and of any two rows one precedes the other unless they are
    of the same kind with names equal up to case. *)
Theorem lessThan_asymmetric_total
        (foldCase : ascii -> ascii) (self : DeviceFileSystem)
        (l r : QModelIndex) (a b : entry) :
  entry_at self (row l) a ->
  entry_at self (row r) b ->
  (name a <> ".." \/ name b <> ".." ->
   lessThan foldCase l r self = (Return true, self, []) ->
   lessThan foldCase r l self = (Return false, self, [])) /\
  (lessThan foldCase l r self = (Return true, self, []) \/
   lessThan foldCase r l self = (Return true, self, []) \/
   (is_dir a = is_dir b /\
    fold_name foldCase (name a) = fold_name foldCase (name b))).
Proof.
  intros Ha Hb.
  rewrite (lessThan_run foldCase self l r a b Ha Hb).
  rewrite (lessThan_run foldCase self r l b a Hb Ha).
  split.
  - intros Hnames [= Hab]. now rewrite (precedes_asym foldCase a b Hnames Hab).
  - destruct (precedes foldCase a b) eqn:Hab; [now left|].
    destruct (precedes foldCase b a) eqn:Hba; [right; now left|].
    right. right.
    destruct (precedes_neither foldCase a b Hab Hba) as (_ & _ & Hkind & Hfold).
    now split.
Qed.

Lemma lessThan_asymmetric_total_witness :
  let self := mk_model [] [mk_entry "Zoo" true 0; mk_entry "a.txt" false 1] in
  lessThan ascii_fold (createIndex 1 0) (createIndex 0 0) self = (Return false, self, []).
Proof.
  intros self.
  destruct (lessThan_asymmetric_total ascii_fold self (createIndex 0 0) (createIndex 1 0)
              (mk_entry "Zoo" true 0) (mk_entry "a.txt" false 1)) as [Hasym _];
    [reflexivity | reflexivity | ].
  apply Hasym; [left; simpl; discriminate | reflexivity].
Defined.

(** X15: "neither precedes the other" holds of two rows exactly when
    neither is named "..", they are of the same kind and their names are
    equal up to case; and it carries over from a first and a second row and
    the second and a third to the first and the third. *)
Theorem lessThan_equivalence
        (foldCase : ascii -> ascii) (self : DeviceFileSystem)
        (l m r : QModelIndex) (a b c : entry) :
  entry_at self (row l) a ->
  entry_at self (row m) b ->
  entry_at self (row r) c ->
  let neither := fun x y =>
    lessThan foldCase x y self = (Return false, self, []) /\
    lessThan foldCase y x self = (Return false, self, []) in
  (neither l m <->
   name a <> ".." /\ name b <> ".." /\ is_dir a = is_dir b /\
   fold_name foldCase (name a) = fold_name foldCase (name b)) /\
  (neither l m -> neither m r -> neither l r).
Proof.
  intros Ha Hb Hc neither. unfold neither.
  rewrite (lessThan_run foldCase self l m a b Ha Hb).
  rewrite (lessThan_run foldCase self m l b a Hb Ha).
  rewrite (lessThan_run foldCase self m r b c Hb Hc).
  rewrite (lessThan_run foldCase self r m c b Hc Hb).
  rewrite (lessThan_run foldCase self l r a c Ha Hc).
  rewrite (lessThan_run foldCase self r l c a Hc Ha).
  split.
  - split.
    + intros [[= Hab] [= Hba]]. now apply precedes_neither.
    + intros (Hna & Hnb & Hkind & Hfold).
      rewrite (precedes_same foldCase a b), (precedes_same foldCase b a); auto.
  - intros [[= Hab] [= Hba]] [[= Hbc] [= Hcb]].
    destruct (precedes_neither foldCase a b Hab Hba) as (Hna & Hnb & Hk1 & Hf1).
    destruct (precedes_neither foldCase b c Hbc Hcb) as (_ & Hnc & Hk2 & Hf2).
    rewrite (precedes_same foldCase a c), (precedes_same foldCase c a);
      auto; congruence.
Qed.

Lemma lessThan_equivalence_witness :
  let self := mk_model [] [mk_entry "Readme" false 3; mk_entry "README" false 9] in
  lessThan ascii_fold (createIndex 0 0) (createIndex 1 0) self = (Return false, self, []) /\
  lessThan ascii_fold (createIndex 1 0) (createIndex 0 0) self = (Return false, self, []).
Proof.
  intros self.
  destruct (lessThan_equivalence ascii_fold self
              (createIndex 0 0) (createIndex 1 0) (createIndex 0 0)
              (mk_entry "Readme" false 3) (mk_entry "README" false 9)
              (mk_entry "Readme" false 3)) as [[_ Hiff] _];
    [reflexivity | reflexivity | reflexivity | ].
  apply Hiff. repeat split; try reflexivity; simpl; discriminate.
Defined.

(** ** What a sorted arrangement looks like *)

(** X16: in any arrangement of the source rows that is sorted by
    [lessThan], a row named ".." is never below another row, no directory is
    below a file, and of two rows of the same kind the upper one does not
    come after the lower one in the case-insensitive order of names. *)
Theorem sorted_rows_layout
        (foldCase : ascii -> ascii) (self : DeviceFileSystem) (rows : list Z)
        (i j : nat) (ri rj : Z) (a b : entry) :
  sorted_rows foldCase self rows ->
  (i < j)%nat ->
  nth_error rows i = Some ri ->
  nth_error rows j = Some rj ->
  entry_at self ri a ->
  entry_at self rj b ->
  name b <> ".." /\
  (name a = ".." \/
   (is_dir a = false -> is_dir b = false) /\
   (is_dir a = is_dir b -> compare_ci foldCase (name a) (name b) <> Gt)).
Proof.
  intros [_ Hsorted] Hij Hi Hj Ha Hb.
  pose proof (Hsorted i j ri rj Hij Hi Hj) as H.
  rewrite (lessThan_run foldCase self (createIndex rj 0) (createIndex ri 0) b a Hb Ha) in H.
  injection H as H.
  assert (Hnb : name b <> "..").
  { intros Hname. now rewrite (precedes_parent_left foldCase b a Hname) in H. }
  split; [exact Hnb|].
  destruct (string_dec (name a) "..") as [Hna|Hna]; [now left|]. right.
  rewrite (precedes_plain foldCase b a Hnb Hna) in H.
  rewrite (compare_ci_antisym foldCase (name a) (name b)) in H.
  split.
  - intros Hda. rewrite Hda in H. destruct (is_dir b); [discriminate | reflexivity].
  - intros Hkind Hgt. rewrite Hkind, Hgt in H. now destruct (is_dir b).
Qed.

Lemma on_ls_one_parent_row (self : DeviceFileSystem) (files : list entry) :
  Forall (fun e => name e <> "..") files ->
  one_parent_row (state_after (on_ls files) self).
Proof.
  intros Hfiles i j a b Hi Hj Ha Hb.
  unfold state_after in Hi, Hj. rewrite on_ls_run in Hi, Hj. simpl in Hi, Hj.
  rewrite Forall_forall in Hfiles.
  assert (Hpos : forall k e,
             nth_error (files ++ match path self with
                                 | [] => []
                                 | _ :: _ => [parent_entry]
                                 end) k = Some e ->
             name e = ".." -> k = length files).
  { intros k e Hk He.
    destruct (Nat.lt_ge_cases k (length files)) as [Hlt|Hge].
    - rewrite nth_error_app1 in Hk by exact Hlt.
      exfalso. apply (Hfiles e); [eapply nth_error_In; eassumption | exact He].
    - rewrite nth_error_app2 in Hk by exact Hge.
      destruct (path self); [destruct (k - length files)%nat; discriminate|].
      destruct (k - length files)%nat as [|d] eqn:Hd; [lia|].
      destruct d; discriminate. }
  rewrite (Hpos i a Hi Ha), (Hpos j b Hj Hb). reflexivity.
Qed.

Lemma sorted_rows_layout_witness :
  let listed := state_after (on_ls [mk_entry "x.txt" false 5; mk_entry "Beta" true 0])
                            (mk_model ["alpha"] []) in
  proxy_to_source ascii_fold listed = [2; 1; 0] /\
  name (mk_entry "x.txt" false 5) <> ".." /\
  (name (mk_entry "Beta" true 0) = ".." \/
   (is_dir (mk_entry "Beta" true 0) = false -> is_dir (mk_entry "x.txt" false 5) = false) /\
   (is_dir (mk_entry "Beta" true 0) = is_dir (mk_entry "x.txt" false 5) ->
    compare_ci ascii_fold "Beta" "x.txt" <> Gt)).
Proof.
  intros listed. split; [reflexivity|].
  apply (sorted_rows_layout ascii_fold listed (proxy_to_source ascii_fold listed)
           1 2 1 0 (mk_entry "Beta" true 0) (mk_entry "x.txt" false 5)).
  - apply proxy_to_source_sorted, on_ls_one_parent_row.
    repeat constructor; simpl; discriminate.
  - lia.
  - reflexivity.
  - reflexivity.
  - reflexivity.
  - reflexivity.
Defined.

(** X17: when the device does not list an entry named ".." itself, the
    arrangement the proxy computes for a listing that has just arrived
    shows every source row once and is sorted by [lessThan]: no row
    precedes a row placed above it. *)
Theorem arrived_listing_sorted
        (foldCase : ascii -> ascii) (self : DeviceFileSystem) (files : list entry) :
  Forall (fun e => name e <> "..") files ->
  let listed := state_after (on_ls files) self in
  sorted_rows foldCase listed (proxy_to_source foldCase listed) /\
  NoDup (proxy_to_source foldCase listed) /\
  length (proxy_to_source foldCase listed) = length (content listed).
Proof.
  intros Hfiles listed.
  pose proof (proxy_to_source_perm foldCase listed) as Hperm.
  split; [|split].
  - apply proxy_to_source_sorted. now apply on_ls_one_parent_row.
  - apply (Permutation_NoDup Hperm), source_rows_NoDup.
  - rewrite <- (Permutation_length Hperm). unfold source_rows.
    now rewrite length_map, length_seq.
Qed.

Lemma arrived_listing_sorted_witness :
  let listed := state_after
                  (on_ls [mk_entry "x.txt" false 5; mk_entry "Beta" true 0;
                          mk_entry "alpha" true 0])
                  (mk_model ["lib"] []) in
  sorted_rows ascii_fold listed [3; 2; 1; 0].
Proof.
  intros listed.
  apply (arrived_listing_sorted ascii_fold (mk_model ["lib"] [])
           [mk_entry "x.txt" false 5; mk_entry "Beta" true 0; mk_entry "alpha" true 0]).
  repeat constructor; simpl; discriminate.
Defined.

(** ** The proxy's forwarding methods *)

Lemma index_in_range (self : DeviceFileSystem) (r : Z) :
  0 <= r < Z.of_nat (length (content self)) ->
  index r self = (Return (createIndex r 0), self, []).
Proof.
  intros Hr. unfold index, rowCount, columnCount, bind, get_content, ret. simpl.
  replace (0 <=? r) with true by (symmetry; apply Z.leb_le; lia).
  replace (r <? Z.of_nat (length (content self))) with true
    by (symmetry; apply Z.ltb_lt; lia).
  reflexivity.
Qed.

Lemma proxy_to_source_length (foldCase : ascii -> ascii) (self : DeviceFileSystem) :
  length (proxy_to_source foldCase self) = length (content self).
Proof.
  rewrite <- (Permutation_length (proxy_to_source_perm foldCase self)).
  unfold source_rows. now rewrite length_map, length_seq.
Qed.

Lemma mapToSource_mapped (foldCase : ascii -> ascii) (self : DeviceFileSystem)
      (proxy_index : QModelIndex) :
  0 <= row proxy_index < Z.of_nat (length (content self)) ->
  column proxy_index = 0 ->
  exists src,
    nth_error (proxy_to_source foldCase self) (Z.to_nat (row proxy_index)) = Some src /\
    In src (source_rows self) /\
    SortedFileSystem.mapToSource foldCase proxy_index self =
      (Return (createIndex src 0), self, []).
Proof.
  intros Hrow Hcol.
  destruct (nth_error (proxy_to_source foldCase self) (Z.to_nat (row proxy_index)))
    as [src|] eqn:Hnth.
  - assert (Hsrc : In src (source_rows self)).
    { apply (Permutation_in src (Permutation_sym (proxy_to_source_perm foldCase self))).
      eapply nth_error_In; eassumption. }
    exists src. split; [reflexivity|]. split; [exact Hsrc|].
    unfold SortedFileSystem.mapToSource, isValid.
    rewrite proxy_to_source_length, Hcol.
    replace (0 <=? row proxy_index) with true by (symmetry; apply Z.leb_le; lia).
    replace (row proxy_index <? Z.of_nat (length (content self))) with true
      by (symmetry; apply Z.ltb_lt; lia).
    simpl. rewrite (nth_error_nth _ _ (-1) Hnth).
    apply index_in_range. now apply source_rows_In.
  - apply nth_error_None in Hnth. rewrite proxy_to_source_length in Hnth. lia.
Qed.

Lemma mapToSource_unmapped (foldCase : ascii -> ascii) (self : DeviceFileSystem)
      (proxy_index : QModelIndex) :
  row proxy_index < 0 \/ Z.of_nat (length (content self)) <= row proxy_index \/
  column proxy_index < 0 \/ 1 <= column proxy_index ->
  SortedFileSystem.mapToSource foldCase proxy_index self =
    (Return invalid_index, self, []).
Proof.
  intros H. unfold SortedFileSystem.mapToSource, isValid.
  rewrite proxy_to_source_length.
  replace ((0 <=? row proxy_index) && (0 <=? column proxy_index)
           && (row proxy_index <? Z.of_nat (length (content self)))
           && (column proxy_index <? 1)) with false; [reflexivity|].
  symmetry.
  destruct (0 <=? row proxy_index) eqn:H1; [|reflexivity].
  destruct (0 <=? column proxy_index) eqn:H2; [|reflexivity].
  destruct (row proxy_index <? Z.of_nat (length (content self))) eqn:H3; [|reflexivity].
  destruct (column proxy_index <? 1) eqn:H4; [|reflexivity].
  apply Z.leb_le in H1, H2. apply Z.ltb_lt in H3, H4. lia.
Qed.

Lemma proxy_enter_run (foldCase : ascii -> ascii) (self : DeviceFileSystem)
      (proxy_index source_index : QModelIndex) :
  SortedFileSystem.mapToSource foldCase proxy_index self =
    (Return source_index, self, []) ->
  SortedFileSystem.enter_directory foldCase proxy_index self =
    enter_directory source_index self.
Proof.
  intros Hmap. unfold SortedFileSystem.enter_directory.
  rewrite (bind_run _ _ _ _ _ _ Hmap).
  destruct (enter_directory_cases self source_index) as [H|(e & _ & H)].
  - now rewrite (bind_raise _ _ _ _ _ _ H), H.
  - rewrite (bind_run _ _ _ _ _ _ H), H. reflexivity.
Qed.

Lemma proxy_is_directory_run (foldCase : ascii -> ascii) (self : DeviceFileSystem)
      (proxy_index source_index : QModelIndex) :
  SortedFileSystem.mapToSource foldCase proxy_index self =
    (Return source_index, self, []) ->
  SortedFileSystem.is_directory foldCase proxy_index self =
    is_directory source_index self.
Proof.
  intros Hmap. unfold SortedFileSystem.is_directory.
  rewrite (bind_run _ _ _ _ _ _ Hmap).
  now destruct (is_directory source_index self) as [[o s] out].
Qed.

(** X18: on a proxy row that shows a source row, the proxy's
    [is_directory] and [enter_directory] do exactly what the model's do on
    that source row; what [enter_directory] hands back through
    [mapFromSource] is again the invalid index. *)
Theorem proxy_forwards_to_source_row
        (foldCase : ascii -> ascii) (self : DeviceFileSystem) (proxy_index : QModelIndex) :
  0 <= row proxy_index < Z.of_nat (length (content self)) ->
  column proxy_index = 0 ->
  exists src,
    nth_error (proxy_to_source foldCase self) (Z.to_nat (row proxy_index)) = Some src /\
    SortedFileSystem.is_directory foldCase proxy_index self =
      is_directory (createIndex src 0) self /\
    SortedFileSystem.enter_directory foldCase proxy_index self =
      enter_directory (createIndex src 0) self.
Proof.
  intros Hrow Hcol.
  destruct (mapToSource_mapped foldCase self proxy_index Hrow Hcol)
    as (src & Hnth & _ & Hmap).
  exists src. split; [exact Hnth|]. split.
  - now apply proxy_is_directory_run.
  - now apply proxy_enter_run.
Qed.

Lemma proxy_forwards_to_source_row_witness :
  let self := mk_model [] [mk_entry "b.txt" false 120; mk_entry "alpha" true 0] in
  exists src,
    nth_error (proxy_to_source ascii_fold self) 0 = Some src /\
    SortedFileSystem.is_directory ascii_fold (createIndex 0 0) self =
      is_directory (createIndex src 0) self /\
    SortedFileSystem.enter_directory ascii_fold (createIndex 0 0) self =
      enter_directory (createIndex src 0) self.
Proof.
  intros self.
  apply (proxy_forwards_to_source_row ascii_fold self (createIndex 0 0)).
  - simpl. lia.
  - reflexivity.
Defined.

(** X19: the proxy's root index is the invalid index.  On it, and on any
    proxy index outside the mapping, the proxy's methods do what the model's
    do on row -1: with a listing that is not empty the proxy's
    [is_directory] does not raise, it answers for the last source row. *)
Theorem proxy_unmapped_index
        (foldCase : ascii -> ascii) (self : DeviceFileSystem) (proxy_index : QModelIndex) :
  row proxy_index < 0 \/ Z.of_nat (length (content self)) <= row proxy_index \/
  column proxy_index < 0 \/ 1 <= column proxy_index ->
  SortedFileSystem.get_root_index foldCase self = (Return invalid_index, self, []) /\
  SortedFileSystem.is_directory foldCase proxy_index self =
    is_directory invalid_index self /\
  SortedFileSystem.enter_directory foldCase proxy_index self =
    enter_directory invalid_index self /\
  (content self <> [] ->
   SortedFileSystem.is_directory foldCase proxy_index self =
     (Return (is_dir (last (content self) parent_entry)), self, [])).
Proof.
  intros H.
  pose proof (mapToSource_unmapped foldCase self proxy_index H) as Hmap.
  split; [reflexivity|]. split; [now apply proxy_is_directory_run|].
  split; [now apply proxy_enter_run|].
  intros Hne. rewrite (proxy_is_directory_run foldCase self _ _ Hmap).
  assert (Hlast : - Z.of_nat (length (content self)) <= -1 <= -1).
  { destruct (content self); [contradiction | simpl; lia]. }
  destruct (getitem_back (content self) (-1) Hlast) as (e & Hnth & Hget).
  rewrite (is_directory_run self invalid_index e Hget).
  replace (Z.to_nat (Z.of_nat (length (content self)) + -1))
    with (length (content self) - 1)%nat in Hnth by lia.
  now rewrite (nth_error_last (content self) e parent_entry Hnth).
Qed.

Lemma proxy_unmapped_index_witness :
  let self := mk_model [] [mk_entry "b.txt" false 120; mk_entry "alpha" true 0] in
  SortedFileSystem.is_directory ascii_fold (createIndex 7 0) self =
    (Return true, self, []).
Proof.
  intros self.
  destruct (proxy_unmapped_index ascii_fold self (createIndex 7 0)) as (_ & _ & _ & H).
  - right. left. simpl. lia.
  - apply H. simpl. discriminate.
Defined.

(** X20: below the root, once a listing has arrived, entering the proxy's
    top row goes up one directory: the path loses its last segment, one
    list request for the shorter path is sent, and the listing stays. *)
Theorem proxy_top_row_goes_up
        (foldCase : ascii -> ascii) (self : DeviceFileSystem) (files : list entry) :
  path self <> [] ->
  let listed := state_after (on_ls files) self in
  SortedFileSystem.enter_directory foldCase (createIndex 0 0) listed =
    (Return invalid_index,
     mk_model (removelast (path self)) (content listed),
     [list_files (join (removelast (path self)))]).
Proof.
  intros Hpath listed.
  assert (Hlisted : listed = mk_model (path self) (files ++ [parent_entry])).
  { unfold listed, state_after. rewrite on_ls_run. simpl.
    destruct (path self); [contradiction | reflexivity]. }
  assert (Hlen : length (content listed) = (length files + 1)%nat).
  { rewrite Hlisted. simpl. now rewrite length_app. }
  assert (Hmarker : nth_error (content listed) (length files) = Some parent_entry).
  { rewrite Hlisted. simpl. rewrite nth_error_app2 by lia. now rewrite Nat.sub_diag. }
  destruct (proxy_to_source_top foldCase listed (Z.of_nat (length files)))
    as (first & rest & Hrows & Htop).
  { apply source_rows_In. lia. }
  { unfold is_parent_row. now rewrite Nat2Z.id, Hmarker. }
  destruct (mapToSource_mapped foldCase listed (createIndex 0 0))
    as (src & Hnth & Hsrc & Hmap); [simpl; lia | reflexivity |].
  rewrite Hrows in Hnth. simpl in Hnth. injection Hnth as <-.
  rewrite (proxy_enter_run foldCase listed _ _ Hmap).
  destruct (source_row_entry listed first Hsrc) as (e & He & Hat).
  unfold is_parent_row in Htop. rewrite He in Htop. apply String.eqb_eq in Htop.
  rewrite (enter_directory_run listed (createIndex first 0) e Hat).
  - unfold entered. rewrite Htop. simpl. now rewrite Hlisted.
  - intros _. now rewrite Hlisted.
Qed.

Lemma proxy_top_row_goes_up_witness :
  let self := mk_model ["lib"; "foo"] [] in
  let files := [mk_entry "x.txt" false 5; mk_entry "sub" true 0] in
  SortedFileSystem.enter_directory ascii_fold (createIndex 0 0)
    (state_after (on_ls files) self) =
    (Return invalid_index,
     mk_model ["lib"] (files ++ [parent_entry]),
     [list_files "lib"]).
Proof.
  intros self files.
  apply (proxy_top_row_goes_up ascii_fold self files).
  simpl. discriminate.
Defined.
